(** * miximum: the component-composition engine

    A shallow embedding of [src/design.ts], of the component module it
    imports ([makeCreate], [makeWithTransform], [makeExtendTransform])
    and of the compose module ([compose], [createListComposedInstance],
    [createMapComposedInstance]): designs are records carrying their
    setup function,
    JavaScript objects live in an explicit heap, effects (allocation,
    mutation, the plan cache, exceptions) are threaded through a small
    state-and-exception monad. *)

From Stdlib Require Import ZArith String List.
From stdpp Require Import base option list gmap strings.

Local Open Scope string_scope.
Local Open Scope Z_scope.
Local Open Scope list_scope.

(** ** JavaScript values *)

(** Object references are indices into the heap; function objects are
    identified by a number whose meaning is given by a call table. *)
Definition loc := nat.
Definition fid := nat.

(** Property keys: [string | symbol]. *)
Inductive PropertyKey :=
| KString (s : string)
| KSymbol (n : nat).

#[global] Instance PropertyKey_eq_dec : EqDecision PropertyKey.
Proof. solve_decision. Defined.

Inductive value :=
| VUndefined
| VNull
| VBoolean (b : bool)
| VNumber (n : Z)
| VString (s : string)
| VObject (l : loc)
| VFunction (f : fid)
| VBound (target : value) (thisArg : value).   (* [target.bind(thisArg)] *)

#[global] Instance value_eq_dec : EqDecision value.
Proof. solve_decision. Defined.

(** The results of the [typeof] operator. *)
Inductive jstype :=
| TUndefined | TObject | TBoolean | TNumber | TString | TFunction.

#[global] Instance jstype_eq_dec : EqDecision jstype.
Proof. solve_decision. Defined.

Definition typeof (v : value) : jstype :=
  match v with
  | VUndefined => TUndefined
  | VNull => TObject
  | VBoolean _ => TBoolean
  | VNumber _ => TNumber
  | VString _ => TString
  | VObject _ => TObject
  | VFunction _ => TFunction
  | VBound _ _ => TFunction
  end.

(** ** Property descriptors and objects *)

(** What [Object.getOwnPropertyDescriptor] returns: a data descriptor
    ([value], [writable]) or an accessor descriptor ([get], [set], each
    a function or absent). *)
Inductive PropertyDescriptor :=
| DataDesc (val : value) (writable : bool)
| AccessorDesc (getter setter : option value).

#[global] Instance PropertyDescriptor_eq_dec : EqDecision PropertyDescriptor.
Proof. solve_decision. Defined.

(** [desc.get], [desc.set], [desc.value], [desc.writable]: a field the
    descriptor does not carry reads as [undefined]. *)
Definition desc_get (d : PropertyDescriptor) : value :=
  match d with
  | AccessorDesc (Some g) _ => g
  | _ => VUndefined
  end.

Definition desc_set (d : PropertyDescriptor) : value :=
  match d with
  | AccessorDesc _ (Some s) => s
  | _ => VUndefined
  end.

Definition desc_value (d : PropertyDescriptor) : value :=
  match d with
  | DataDesc v _ => v
  | AccessorDesc _ _ => VUndefined
  end.

Definition desc_writable (d : PropertyDescriptor) : bool :=
  match d with
  | DataDesc _ w => w
  | AccessorDesc _ _ => false
  end.

(** Insertion-ordered key/value tables: the property table of an object,
    the JavaScript [Map] of the composition plan and plain records.  [assoc_set]
    overwrites in place and appends a new key at the end, as [Map.set]
    and property creation do. *)
Section Assoc.
Context {K : Type} `{EqDecision K} {V : Type}.

Fixpoint assoc_get (k : K) (m : list (K * V)) : option V :=
  match m with
  | [] => None
  | (k', v) :: m' => if decide (k = k') then Some v else assoc_get k m'
  end.

Fixpoint assoc_set (k : K) (v : V) (m : list (K * V)) : list (K * V) :=
  match m with
  | [] => [(k, v)]
  | (k', v') :: m' =>
      if decide (k = k') then (k, v) :: m' else (k', v') :: assoc_set k v m'
  end.

Definition assoc_has (k : K) (m : list (K * V)) : bool :=
  match assoc_get k m with Some _ => true | None => false end.

Definition assoc_keys (m : list (K * V)) : list K :=
  m.*1.
End Assoc.

(** A prototype object on the chain of an instance.  [proto_id] stands
    for its identity. *)
Record Proto := mkProto {
  proto_id : nat;
  proto_props : list (PropertyKey * PropertyDescriptor)
}.

#[global] Instance Proto_eq_dec : EqDecision Proto.
Proof. solve_decision. Defined.

(** An object: its own properties in [Reflect.ownKeys] order, its
    prototype chain, nearest first, up to but excluding
    [Object.prototype] (the part the plan builder walks), and whether
    it accepts new properties ([Object.isExtensible]). *)
Record JsObject := mkJsObject {
  own_props : list (PropertyKey * PropertyDescriptor);
  proto_chain : list Proto;
  extensible : bool
}.

#[global] Instance JsObject_eq_dec : EqDecision JsObject.
Proof. solve_decision. Defined.

(** An object as a literal or [new] makes it: extensible. *)
Definition mkObject (props : list (PropertyKey * PropertyDescriptor))
    (chain : list Proto) : JsObject :=
  mkJsObject props chain true.

Definition empty_object : JsObject := mkObject [] [].

(** ** The composition plan *)

(** One entry of the plan: [{ index, desc, proto }]. *)
Record PlanEntry := mkEntry {
  index : nat;
  desc : PropertyDescriptor;
  proto : option Proto
}.

#[global] Instance PlanEntry_eq_dec : EqDecision PlanEntry.
Proof. solve_decision. Defined.

Definition PropertyMap := list (PropertyKey * PlanEntry).

(** ** The world: heap and plan cache *)

(** The heap maps references to objects; [next_loc] is the next
    reference to hand out.  [listComposedPropertyMapCache] is a
    [WeakMap] keyed by the identity of the design list; identities are
    numbers here. *)
Record World := mkWorld {
  heap : gmap loc JsObject;
  next_loc : loc;
  listComposedPropertyMapCache : gmap nat PropertyMap
}.

Definition empty_world : World := mkWorld ∅ 0%nat ∅.

Definition heap_get (w : World) (l : loc) : JsObject :=
  default empty_object (heap w !! l).

Definition heap_put (l : loc) (o : JsObject) (w : World) : World :=
  mkWorld (<[l := o]> (heap w)) (next_loc w) (listComposedPropertyMapCache w).

Definition heap_alloc (o : JsObject) (w : World) : loc * World :=
  (next_loc w,
   mkWorld (<[next_loc w := o]> (heap w)) (S (next_loc w))
           (listComposedPropertyMapCache w)).

Definition cache_set (id : nat) (pm : PropertyMap) (w : World) : World :=
  mkWorld (heap w) (next_loc w) (<[id := pm]> (listComposedPropertyMapCache w)).

(** ** Computations: state threaded through, exceptions propagated *)

Inductive Error :=
| InvalidArgument (msg : string)   (* [new Error( msg )] thrown by the engine *)
| TypeError                         (* raised by the language itself *)
| Thrown (v : value).               (* anything user code throws *)

Inductive Res (A : Type) :=
| Ok (a : A)
| Throw (e : Error).
Arguments Ok {A} a.
Arguments Throw {A} e.

Definition M (A : Type) : Type := World -> Res A * World.

Definition ret {A} (a : A) : M A := fun w => (Ok a, w).
Definition throw {A} (e : Error) : M A := fun w => (Throw e, w).
Definition bind {A B} (c : M A) (k : A -> M B) : M B :=
  fun w => match c w with
           | (Ok a, w') => k a w'
           | (Throw e, w') => (Throw e, w')
           end.

Notation "x <- c ;; k" := (bind c (fun x => k))
  (at level 100, c at next level, right associativity).

(** [items.map( f )] for an effectful [f]: left to right, stopping at the
    first exception. *)
Fixpoint array_map {A B} (f : A -> M B) (l : list A) : M (list B) :=
  match l with
  | [] => ret []
  | a :: l' => b <- f a ;; bs <- array_map f l' ;; ret (b :: bs)
  end.

(** ** The component module *)

(** [ComponentDesign<TDeps, TInstance>]: the object [{ create, with,
    extend }].  All three members are closures over one setup function,
    so the record carries that function and the members are derived from
    it below, by the helpers the source derives them with. *)
Record ComponentDesign (TDeps TInstance : Type) := mkDesign {
  setupFn : TDeps -> M TInstance
}.
Arguments mkDesign {TDeps TInstance} setupFn.
Arguments setupFn {TDeps TInstance} _ _ _.

(** [makeCreate( setup )]: calls [setup] on its first argument (a call
    without arguments is the call at [undefined]). *)
Definition makeCreate {TDeps TInstance} (setup : TDeps -> M TInstance)
  : TDeps -> M TInstance :=
  fun dependencies => setup dependencies.

(** [aDesign.create]. *)
Definition create {TDeps TInstance} (d : ComponentDesign TDeps TInstance)
  : TDeps -> M TInstance :=
  makeCreate (setupFn d).

(** Dependency objects are key/value bags. [{ ...values, ...deps }]
    copies [values] first and [deps] second, so [deps] wins a collision. *)
Definition spread2 {V} (values deps : gmap string V) : gmap string V :=
  deps ∪ values.

(** [makeWithTransform( setupFn )( values )].  The source wraps the new
    setup function with [design( ... )]; at a function argument that is
    [mkDesign] (lemma [design1_mkDesign] below). *)
Definition makeWithTransform {V TInstance}
    (setupFn : gmap string V -> M TInstance) (values : gmap string V)
  : ComponentDesign (gmap string V) TInstance :=
  mkDesign (fun deps =>
    let fullDeps := spread2 values deps in
    setupFn fullDeps).

(** [aDesign.with( values )]. *)
Definition with_ {V TInstance}
    (d : ComponentDesign (gmap string V) TInstance) (values : gmap string V)
  : ComponentDesign (gmap string V) TInstance :=
  makeWithTransform (setupFn d) values.

(** [makeExtendTransform( setupFn )()]; [inject] is the cast
    [deps as TDeps] from the wider shape.  Wrapped with [design( ... )]
    like the previous one. *)
Definition makeExtendTransform {TDeps E TInstance}
    (setupFn : TDeps -> M TInstance) (inject : E -> TDeps)
  : ComponentDesign E TInstance :=
  mkDesign (fun deps => setupFn (inject deps)).

(** ** design.ts *)

(** Values that are neither functions nor objects. *)
Inductive Primitive :=
| PUndefined
| PNull
| PBoolean (b : bool)
| PNumber (n : Z)
| PString (s : string).

Definition prim_typeof (p : Primitive) : jstype :=
  match p with
  | PUndefined => TUndefined
  | PNull => TObject
  | PBoolean _ => TBoolean
  | PNumber _ => TNumber
  | PString _ => TString
  end.

Definition prim_truthy (p : Primitive) : bool :=
  match p with
  | PUndefined | PNull => false
  | PBoolean b => b
  | PNumber n => negb (n =? 0)
  | PString s => negb (String.eqb s "")
  end.

(** What an object answers when asked for its [create] member: nothing
    (['create' in obj] is false), a function, or some other value. *)
Inductive CreateMember (TDeps TInstance : Type) :=
| NoCreate
| CreateFunction (f : TDeps -> M TInstance)
| CreateOther (p : Primitive).
Arguments NoCreate {TDeps TInstance}.
Arguments CreateFunction {TDeps TInstance} f.
Arguments CreateOther {TDeps TInstance} p.

(** An argument as [design] receives it at run time. *)
Inductive DesignArg (TIn TOut TDeps TInstance : Type) :=
| ArgFunction (f : TIn -> M TOut)
| ArgObject (member : CreateMember TDeps TInstance)
| ArgPrimitive (p : Primitive).
Arguments ArgFunction {TIn TOut TDeps TInstance} f.
Arguments ArgObject {TIn TOut TDeps TInstance} member.
Arguments ArgPrimitive {TIn TOut TDeps TInstance} p.

Section DesignArgs.
Context {TIn TOut TDeps TInstance : Type}.
Implicit Type obj : DesignArg TIn TOut TDeps TInstance.

Definition arg_typeof obj : jstype :=
  match obj with
  | ArgFunction _ => TFunction
  | ArgObject _ => TObject
  | ArgPrimitive p => prim_typeof p
  end.

Definition arg_truthy obj : bool :=
  match obj with
  | ArgFunction _ | ArgObject _ => true
  | ArgPrimitive p => prim_truthy p
  end.

(** ['create' in obj], asked of objects only. *)
Definition create_in obj : bool :=
  match obj with
  | ArgObject NoCreate => false
  | ArgObject _ => true
  | _ => false
  end.

(** [typeof obj.create]. *)
Definition typeof_create obj : jstype :=
  match obj with
  | ArgObject (CreateFunction _) => TFunction
  | ArgObject (CreateOther p) => prim_typeof p
  | _ => TUndefined
  end.

Definition isComponentDesign obj : bool :=
  arg_truthy obj
  && bool_decide (arg_typeof obj = TObject)
  && create_in obj
  && bool_decide (typeof_create obj = TFunction).

(** Calling the argument as a function; a non-function raises. *)
Definition call_arg obj : TIn -> M TOut :=
  match obj with
  | ArgFunction f => f
  | _ => fun _ => throw TypeError
  end.

(** [obj.create( deps )]. *)
Definition call_create obj : TDeps -> M TInstance :=
  match obj with
  | ArgObject (CreateFunction f) => f
  | _ => fun _ => throw TypeError
  end.

(** The value exposes a [create] operation. *)
Definition exposes_create obj : Prop :=
  exists f, obj = ArgObject (CreateFunction f).
End DesignArgs.

(** A design passed as an argument is an object whose [create] member is
    its create function. *)
Definition arg_of_design {TIn TOut TDeps TInstance}
    (d : ComponentDesign TDeps TInstance)
  : DesignArg TIn TOut TDeps TInstance :=
  ArgObject (CreateFunction (create d)).

Definition invalid_child_msg : string := "Invalid child argument to design()".

(** [design( setupOrParent, child? )]; an omitted [child] is
    [ArgPrimitive PUndefined].  The result is [Throw] when the call
    itself raises. *)
Definition design {TDeps TParent TInstance : Type}
    (setupOrParent : DesignArg TDeps TInstance TDeps TParent)
    (child : DesignArg TParent TInstance TDeps TInstance)
  : Res (ComponentDesign TDeps TInstance) :=
  let isParentDesign := isComponentDesign setupOrParent in
  let setupFn : Res (TDeps -> M TInstance) :=
    if negb isParentDesign then
      Ok (call_arg setupOrParent)
    else
      let parentDesign := setupOrParent in
      if bool_decide (arg_typeof child = TFunction) then
        Ok (fun deps =>
              parent <- call_create parentDesign deps ;;
              call_arg child parent)
      else if arg_truthy child && isComponentDesign child then
        let childDesign := child in
        Ok (fun deps => call_create childDesign deps)
      else
        Throw (InvalidArgument invalid_child_msg) in
  match setupFn with
  | Ok setupFn => Ok (mkDesign setupFn)
  | Throw e => Throw e
  end.

(** [design( setup )]. *)
Definition design1 {TDeps TInstance : Type} (setup : TDeps -> M TInstance)
  : Res (ComponentDesign TDeps TInstance) :=
  design (TParent := unit) (ArgFunction setup) (ArgPrimitive PUndefined).

(** ** The compose module: the plan *)

Definition Reflect_ownKeys (o : JsObject) : list PropertyKey :=
  assoc_keys (own_props o).

Definition getOwnPropertyDescriptor (props : list (PropertyKey * PropertyDescriptor))
    (key : PropertyKey) : option PropertyDescriptor :=
  assoc_get key props.

(** The first loop of the plan builder: every own key of instance [i]
    is written into the plan, overwriting what is there. *)
Definition add_own_keys (i : nat) (inst : JsObject) (propertyMap : PropertyMap)
  : PropertyMap :=
  foldl (fun pm key =>
           match getOwnPropertyDescriptor (own_props inst) key with
           | Some desc => assoc_set key (mkEntry i desc None) pm
           | None => pm
           end)
        propertyMap (Reflect_ownKeys inst).

(** One turn of the [while ( proto && proto !== Object.prototype )]
    loop: the keys of one prototype, written only where the plan has no
    entry yet. *)
Definition add_proto_keys (i : nat) (p : Proto) (propertyMap : PropertyMap)
  : PropertyMap :=
  foldl (fun pm key =>
           if negb (assoc_has key pm) then
             match getOwnPropertyDescriptor (proto_props p) key with
             | Some desc => assoc_set key (mkEntry i desc (Some p)) pm
             | None => pm
             end
           else pm)
        propertyMap (assoc_keys (proto_props p)).

(** The body of the [for ( let i = 0; ... )] loop. *)
Definition add_instance (i : nat) (inst : JsObject) (propertyMap : PropertyMap)
  : PropertyMap :=
  foldl (fun pm p => add_proto_keys i p pm)
        (add_own_keys i inst propertyMap) (proto_chain inst).

Fixpoint build_from (i : nat) (insts : list JsObject) (propertyMap : PropertyMap)
  : PropertyMap :=
  match insts with
  | [] => propertyMap
  | inst :: rest => build_from (S i) rest (add_instance i inst propertyMap)
  end.

(** The plan of a list of instances, starting from [new Map()]. *)
Definition build_plan (insts : list JsObject) : PropertyMap :=
  build_from 0%nat insts [].

(** The entry instance [i] would contribute for an inherited [key]: the
    nearest prototype on its chain that has the key. *)
Fixpoint chain_entry (i : nat) (key : PropertyKey) (chain : list Proto)
  : option PlanEntry :=
  match chain with
  | [] => None
  | p :: chain' =>
      match getOwnPropertyDescriptor (proto_props p) key with
      | Some d => Some (mkEntry i d (Some p))
      | None => chain_entry i key chain'
      end
  end.

(** ** The compose module: the composed instances *)

(** A design list is an array with an identity; its designs return
    objects, given by reference. *)
Record ComponentDesignList (TDeps : Type) := mkList {
  list_id : nat;
  list_items : list (ComponentDesign TDeps loc)
}.
Arguments mkList {TDeps} list_id list_items.
Arguments list_id {TDeps} _.
Arguments list_items {TDeps} _.

(** A design map is a record: its keys in [Object.keys] order. *)
Definition ComponentDesignMap (TDeps TInstance : Type) :=
  list (string * ComponentDesign TDeps TInstance).

(** The proxy returned in list mode: its handler closes over the
    instances of this [create] call and over the plan.  The traps of
    the handler are modelled below; the target is the empty object
    [{}], on which the proxy protocol imposes nothing on [get], [set],
    [has] and [ownKeys]. *)
Record Facade := mkFacade {
  instances : list loc;
  propertyMap : PropertyMap
}.

Definition instantiate {TDeps} (items : ComponentDesignList TDeps) (deps : TDeps)
  : M (list loc) :=
  array_map (fun item => create item deps) (list_items items).

Definition createListComposedInstance {TDeps}
    (items : ComponentDesignList TDeps) (deps : TDeps) : M Facade :=
  fun w =>
    let cached := listComposedPropertyMapCache w !! list_id items in
    (instances <- instantiate items deps ;;
     match cached with
     | Some propertyMap => ret (mkFacade instances propertyMap)
     | None =>
         fun w' =>
           let propertyMap := build_plan (heap_get w' <$> instances) in
           (Ok (mkFacade instances propertyMap),
            cache_set (list_id items) propertyMap w')
     end) w.

(** The object [result] of map mode, made by the literal [{}]: its own
    properties, and the value an assignment to the key [__proto__] has
    handed to the accessor [Object.prototype] has under that name (from
    then on the prototype of [result], when that value is an object or
    [null]; [None] while [result] still inherits from
    [Object.prototype] alone). *)
Record MapResult (TInstance : Type) := mkMapResult {
  result_props : list (string * TInstance);
  result_proto : option TInstance
}.
Arguments mkMapResult {TInstance} result_props result_proto.
Arguments result_props {TInstance} _.
Arguments result_proto {TInstance} _.

(** [result[ key ] = inst]: the key [__proto__] reaches the accessor
    and makes no own property; any other key becomes, or overwrites, an
    own property.  An instance that has become the prototype of
    [result] is taken to define neither an accessor nor a read-only
    property under a later key of the map. *)
Definition result_assign {TInstance} (key : string) (inst : TInstance)
    (result : MapResult TInstance) : MapResult TInstance :=
  if String.eqb key "__proto__" then
    mkMapResult (result_props result) (Some inst)
  else
    mkMapResult (assoc_set key inst (result_props result)) (result_proto result).

(** The loop of [createMapComposedInstance], over [Object.keys( items )]. *)
Fixpoint map_loop {TDeps TInstance} (items : ComponentDesignMap TDeps TInstance)
    (deps : TDeps) (keys : list string) (result : MapResult TInstance)
  : M (MapResult TInstance) :=
  match keys with
  | [] => ret result
  | key :: rest =>
      match assoc_get key items with
      | Some item =>
          inst <- create item deps ;;
          map_loop items deps rest (result_assign key inst result)
      | None => throw TypeError
      end
  end.

Definition createMapComposedInstance {TDeps TInstance}
    (items : ComponentDesignMap TDeps TInstance) (deps : TDeps)
  : M (MapResult TInstance) :=
  map_loop items deps (assoc_keys items) (mkMapResult [] None).

(** Map mode, as the spec words it: every design is created in turn
    against the same [deps] and the instances are paired with the keys. *)
Definition keyed_instances {TDeps TInstance}
    (items : ComponentDesignMap TDeps TInstance) (deps : TDeps)
  : M (list (string * TInstance)) :=
  insts <- array_map (fun entry => create (snd entry) deps) items ;;
  ret (zip (assoc_keys items) insts).

(** ** The compose module: [compose] *)

(** What [Object.getPrototypeOf] answers for an object argument. *)
Inductive ProtoKind :=
| ObjectPrototype     (* [Object.prototype] *)
| NullPrototype       (* [null] *)
| OtherPrototype.     (* a class prototype, [Map.prototype], ... *)

(** An argument as [compose] receives it at run time. *)
Inductive ComposeArg (TDeps TInstance : Type) :=
| ArgArray (items : ComponentDesignList TDeps)
| ArgRecord (proto : ProtoKind) (items : ComponentDesignMap TDeps TInstance)
| ArgCallable
| ArgValue (p : Primitive).
Arguments ArgArray {TDeps TInstance} items.
Arguments ArgRecord {TDeps TInstance} proto items.
Arguments ArgCallable {TDeps TInstance}.
Arguments ArgValue {TDeps TInstance} p.

Section ComposeArgs.
Context {TDeps TInstance : Type}.
Implicit Type obj : ComposeArg TDeps TInstance.

Definition Array_isArray obj : bool :=
  match obj with ArgArray _ => true | _ => false end.

Definition compose_typeof obj : jstype :=
  match obj with
  | ArgArray _ | ArgRecord _ _ => TObject
  | ArgCallable => TFunction
  | ArgValue p => prim_typeof p
  end.

Definition is_null obj : bool :=
  match obj with ArgValue PNull => true | _ => false end.

Definition getPrototypeOf obj : ProtoKind :=
  match obj with
  | ArgRecord proto _ => proto
  | _ => OtherPrototype
  end.

Definition isPlainObject obj : bool :=
  if negb (bool_decide (compose_typeof obj = TObject)) || is_null obj then
    false
  else
    match getPrototypeOf obj with
    | ObjectPrototype | NullPrototype => true
    | OtherPrototype => false
    end.
End ComposeArgs.

(** The instance of a composed design: the proxy or the plain record. *)
Inductive Composed (TInstance : Type) :=
| Merged (f : Facade)
| Mapped (o : MapResult TInstance).
Arguments Merged {TInstance} f.
Arguments Mapped {TInstance} o.

Definition invalid_designs_msg : string := "Invalid designs argument to compose()".

(** The [setup] closure inside [compose].  The inner matches are the
    casts of [designs] to the shape the test has just established; their
    other branches are never reached. *)
Definition compose_setup {TDeps TInstance} (designs : ComposeArg TDeps TInstance)
    (deps : TDeps) : M (Composed TInstance) :=
  if Array_isArray designs then
    match designs with
    | ArgArray items => f <- createListComposedInstance items deps ;; ret (Merged f)
    | _ => throw TypeError
    end
  else if isPlainObject designs then
    match designs with
    | ArgRecord _ items => o <- createMapComposedInstance items deps ;; ret (Mapped o)
    | _ => throw TypeError
    end
  else
    throw (InvalidArgument invalid_designs_msg).

(** [compose( designs )]: [Throw] when the call itself raises. *)
Definition compose {TDeps TInstance} (designs : ComposeArg TDeps TInstance)
  : Res (ComponentDesign TDeps (Composed TInstance)) :=
  let setup := compose_setup designs in
  Ok (mkDesign setup).

(** ** Property access and the proxy handler *)

Section Engine.
(** The meaning of user functions (getters, setters, methods):
    [call f this args]. *)
Variable call : fid -> value -> list value -> M value.

(** [f.call( this, ...args )]; a bound function ignores [this]. *)
Fixpoint call_value (f : value) (this : value) (args : list value) : M value :=
  match f with
  | VFunction id => call id this args
  | VBound target thisArg => call_value target thisArg args
  | _ => throw TypeError
  end.

(** The first definition of [key] along a prototype chain. *)
Fixpoint lookup_chain (key : PropertyKey) (chain : list Proto)
  : option PropertyDescriptor :=
  match chain with
  | [] => None
  | p :: chain' =>
      match getOwnPropertyDescriptor (proto_props p) key with
      | Some d => Some d
      | None => lookup_chain key chain'
      end
  end.

(** The property an object answers with for [key]: own first, then
    inherited. *)
Definition find_property (o : JsObject) (key : PropertyKey)
  : option PropertyDescriptor :=
  match getOwnPropertyDescriptor (own_props o) key with
  | Some d => Some d
  | None => lookup_chain key (proto_chain o)
  end.

(** [inst[ key ]] on an object. *)
Definition js_get (l : loc) (key : PropertyKey) : M value :=
  fun w =>
    match find_property (heap_get w l) key with
    | Some (DataDesc v _) => (Ok v, w)
    | Some (AccessorDesc (Some g) _) => call_value g (VObject l) [] w
    | Some (AccessorDesc None _) => (Ok VUndefined, w)
    | None => (Ok VUndefined, w)
    end.

(** Writing the value of the own data property [key] of an object, or
    creating that property (writable) at the end of its table. *)
Definition define_own (l : loc) (key : PropertyKey) (v : value) : M unit :=
  fun w =>
    let o := heap_get w l in
    (Ok tt,
     heap_put l (mkJsObject (assoc_set key (DataDesc v true) (own_props o))
                            (proto_chain o) (extensible o)) w).

(** The assignment has to create an own property: an object that is
    not extensible refuses. *)
Definition create_own (l : loc) (key : PropertyKey) (v : value) : M unit :=
  fun w =>
    if extensible (heap_get w l) then define_own l key v w
    else (Throw TypeError, w).

(** [inst[ key ] = v] on an object, in strict mode (module code): an
    assignment that cannot be carried out raises [TypeError].  An own
    property decides first; without one, the nearest inherited
    property decides, and where that is a writable data property or
    there is none, the assignment creates an own property.

    Every key is an ordinary key here.  On an object that inherits
    from [Object.prototype] an assignment to the key [__proto__] that
    finds no property of that name below [Object.prototype] runs the
    accessor [Object.prototype] has under that name; the prototype
    chains of this development are fixed, so what is stated below
    about the outcome of an assignment leaves that key out. *)
Definition js_set (l : loc) (key : PropertyKey) (v : value) : M unit :=
  fun w =>
    let o := heap_get w l in
    match getOwnPropertyDescriptor (own_props o) key with
    | Some (DataDesc _ true) => define_own l key v w
    | Some (DataDesc _ false) => (Throw TypeError, w)
    | Some (AccessorDesc _ (Some s)) =>
        (_ <- call_value s (VObject l) [v] ;; ret tt) w
    | Some (AccessorDesc _ None) => (Throw TypeError, w)
    | None =>
        match lookup_chain key (proto_chain o) with
        | Some (DataDesc _ true) => create_own l key v w
        | Some (DataDesc _ false) => (Throw TypeError, w)
        | Some (AccessorDesc _ (Some s)) =>
            (_ <- call_value s (VObject l) [v] ;; ret tt) w
        | Some (AccessorDesc _ None) => (Throw TypeError, w)
        | None => create_own l key v w
        end
    end.


(** [instances[ index ]] as a value: [undefined] out of range. *)
Definition instance_value (inst : option loc) : value :=
  match inst with
  | Some l => VObject l
  | None => VUndefined
  end.

(** [inst[ prop ]] where [inst] may be [undefined]. *)
Definition get_member (inst : option loc) (prop : PropertyKey) : M value :=
  match inst with
  | Some l => js_get l prop
  | None => throw TypeError
  end.

Definition set_member (inst : option loc) (prop : PropertyKey) (v : value)
  : M unit :=
  match inst with
  | Some l => js_set l prop v
  | None => throw TypeError
  end.

(** The [get] trap. *)
Definition facade_get (f : Facade) (prop : PropertyKey) : M value :=
  match assoc_get prop (propertyMap f) with
  | Some entry =>
      let inst := instances f !! index entry in
      if bool_decide (typeof (desc_get (desc entry)) = TFunction) then
        call_value (desc_get (desc entry)) (instance_value inst) []
      else if negb (bool_decide (typeof (desc_value (desc entry)) = TUndefined)) then
        if bool_decide (is_Some (proto entry))
           && bool_decide (typeof (desc_value (desc entry)) = TFunction) then
          ret (VBound (desc_value (desc entry)) (instance_value inst))
        else
          get_member inst prop
      else
        ret VUndefined
  | None => ret VUndefined
  end.

(** The tail of the [set] trap: the assignment onto the last instance. *)
Definition set_on_last (f : Facade) (prop : PropertyKey) (v : value) : M bool :=
  if (0 <? length (instances f))%nat then
    _ <- set_member (instances f !! (length (instances f) - 1)%nat) prop v ;;
    ret true
  else
    ret false.

(** The [set] trap. *)
Definition facade_set (f : Facade) (prop : PropertyKey) (v : value) : M bool :=
  match assoc_get prop (propertyMap f) with
  | Some entry =>
      let inst := instances f !! index entry in
      if bool_decide (typeof (desc_set (desc entry)) = TFunction) then
        _ <- call_value (desc_set (desc entry)) (instance_value inst) [v] ;;
        ret true
      else if desc_writable (desc entry) then
        _ <- set_member inst prop v ;;
        ret true
      else
        set_on_last f prop v
  | None => set_on_last f prop v
  end.

(** The [has], [ownKeys] and [getOwnPropertyDescriptor] traps: what the
    handler functions return.  The proxy checks a descriptor a trap
    returns against its target before handing it on, and refuses the
    descriptor of a property that is not configurable; that check is
    not part of the handler and is not modelled.  The answer
    [undefined] (here [None]) passes it, the target being empty and
    extensible. *)
Definition facade_has (f : Facade) (prop : PropertyKey) : bool :=
  assoc_has prop (propertyMap f).

Definition facade_ownKeys (f : Facade) : list PropertyKey :=
  assoc_keys (propertyMap f).

End Engine.

(** ** Sample components *)

(** [new] an object: allocate it and return its reference. *)
Definition new_object (o : JsObject) : M loc :=
  fun w => let '(l, w') := heap_alloc o w in (Ok l, w').

Definition data (k : string) (v : value) : PropertyKey * PropertyDescriptor :=
  (KString k, DataDesc v true).

Definition readonly (k : string) (v : value) : PropertyKey * PropertyDescriptor :=
  (KString k, DataDesc v false).

(** [design( () => ( { value: 'A' } ) )]. *)
Definition DesignA : ComponentDesign unit loc :=
  mkDesign (fun _ => new_object (mkObject [data "value" (VString "A")] [])).

(** [design( () => ( { y: 2 } ) )]. *)
Definition DesignY : ComponentDesign unit loc :=
  mkDesign (fun _ => new_object (mkObject [data "y" (VNumber 2)] [])).

(** [design( () => Object.freeze( { x: 1 } ) )]. *)
Definition DesignFrozen : ComponentDesign unit loc :=
  mkDesign (fun _ => new_object (mkJsObject [readonly "x" (VNumber 1)] [] false)).

(** [design( () => ( { x: undefined } ) )]. *)
Definition DesignBlank : ComponentDesign unit loc :=
  mkDesign (fun _ => new_object (mkObject [data "x" VUndefined] [])).

(** [class B { value() { ... } }; design( () => new B() )]: the key
    [value] is defined on the prototype only. *)
Definition B_prototype : Proto :=
  mkProto 1%nat [(KString "value", DataDesc (VFunction 7%nat) true)].

Definition DesignB : ComponentDesign unit loc :=
  mkDesign (fun _ => new_object (mkObject [] [B_prototype])).

(** State shared by setup functions: the object at reference 0, with
    the counters [built] and [next]
    ([let built = 0; let next = 0;] at module level). *)
Definition counters : loc := 0%nat.

Definition counter_world : World :=
  mkWorld {[ counters := mkObject [data "built" (VNumber 0); data "next" (VNumber 0)] [] ]}
          1%nat ∅.

(** Reading a counter, and [counter++]. *)
Definition read_counter (k : string) : M Z :=
  fun w =>
    match getOwnPropertyDescriptor (own_props (heap_get w counters)) (KString k) with
    | Some (DataDesc (VNumber n) _) => (Ok n, w)
    | _ => (Ok 0, w)
    end.

Definition post_increment (k : string) : M Z :=
  fun w =>
    match read_counter k w with
    | (Ok n, _) =>
        let o := heap_get w counters in
        (Ok n,
         heap_put counters
           (mkJsObject (assoc_set (KString k) (DataDesc (VNumber (n + 1)) true) (own_props o))
                       (proto_chain o) (extensible o)) w)
    | (Throw e, w') => (Throw e, w')
    end.

(** A component whose accessor closes over a variable of its setup
    call:
    [design( () => { const n = next++; return { get id() { return n; } }; } )].
    The closure environment is an object of its own, holding [n]; the
    getter is the function numbered by the reference of that
    environment. *)
Definition DesignCounter : ComponentDesign unit loc :=
  mkDesign (fun _ =>
    n <- post_increment "next" ;;
    env <- new_object (mkObject [data "n" (VNumber n)] []) ;;
    new_object (mkObject [(KString "id", AccessorDesc (Some (VFunction env)) None)] [])).

(** The call table of the sample functions: function [f] returns the
    variable [n] of the environment stored at reference [f]. *)
Definition sample_call (f : fid) (this : value) (args : list value) : M value :=
  fun w =>
    match getOwnPropertyDescriptor (own_props (heap_get w f)) (KString "n") with
    | Some (DataDesc v _) => (Ok v, w)
    | _ => (Ok VUndefined, w)
    end.

(** A parent whose construction is observable
    ([design( () => { built++; return { value: 10 }; } )]), and a child
    without effects. *)
Definition DesignParent : ComponentDesign unit loc :=
  mkDesign (fun _ =>
    _ <- post_increment "built" ;;
    new_object (mkObject [data "value" (VNumber 10)] [])).

Definition DesignChild : ComponentDesign unit value :=
  mkDesign (fun _ => ret (VNumber 20)).

(** [design( ( deps ) => deps.port )] and a dependency object. *)
Definition DesignPort : ComponentDesign (gmap string value) value :=
  mkDesign (fun deps => ret (default VUndefined (deps !! "port"))).

Definition sample_rest : gmap string value := {[ "host" := VString "localhost" ]}.

Definition list_AB : ComponentDesignList unit := mkList 0%nat [DesignA; DesignB].
Definition list_FY : ComponentDesignList unit := mkList 1%nat [DesignFrozen; DesignY].
Definition list_blank : ComponentDesignList unit := mkList 2%nat [DesignBlank].
Definition list_counter : ComponentDesignList unit := mkList 3%nat [DesignCounter].
Definition list_AY : ComponentDesignList unit := mkList 4%nat [DesignA; DesignY].

Definition map_xy : ComponentDesignMap unit loc := [("x", DesignA); ("y", DesignY)].

(** [compose( { [ '__proto__' ]: A } )]: a map whose only own key is
    [__proto__]. *)
Definition map_proto : ComponentDesignMap unit loc := [("__proto__", DesignA)].


(** [compose( [ B ] )]: the only instance inherits [value]. *)
Definition list_B : ComponentDesignList unit := mkList 5%nat [DesignB].

(** The facade of [compose( items ).create()] in state [w], and the
    state after it. *)
Definition facade_of (items : ComponentDesignList unit) (w : World) : Facade :=
  match fst (createListComposedInstance items tt w) with
  | Ok f => f
  | Throw _ => mkFacade [] []
  end.

Definition world_of (items : ComponentDesignList unit) (w : World) : World :=
  snd (createListComposedInstance items tt w).

Definition facade_AY : Facade := facade_of list_AY empty_world.
Definition world_AY : World := world_of list_AY empty_world.

(** [design( () => { throw 'boom'; } )]. *)
Definition DesignThrow : ComponentDesign unit loc :=
  mkDesign (fun _ => throw (Thrown (VString "boom"))).

Definition list_AThrowY : ComponentDesignList unit :=
  mkList 6%nat [DesignA; DesignThrow; DesignY].

Definition list_empty : ComponentDesignList unit := mkList 7%nat [].


(** [class C { value() { ... } }]: another prototype with [value]. *)
Definition C_prototype : Proto :=
  mkProto 2%nat [(KString "value", DataDesc (VFunction 8%nat) true)].

(** ** The state module: [createState] *)

(** JavaScript [Set]s of references, in insertion order. *)
Section OrderedSet.
Context {A : Type} `{EqDecision A}.

Definition set_add (x : A) (l : list A) : list A :=
  if decide (x ∈ l) then l else l ++ [x].

Definition set_delete (x : A) (l : list A) : list A :=
  List.filter (fun y => negb (bool_decide (y = x))) l.
End OrderedSet.

(** [Map.delete]. *)
Definition assoc_delete {K : Type} `{EqDecision K} {V : Type}
    (k : K) (m : list (K * V)) : list (K * V) :=
  List.filter (fun kv => negb (bool_decide (fst kv = k))) m.

Module State.

(** State data and snapshots: objects with string keys, as ordered
    key/value tables. *)
Definition StateData := list (string * value).

(** The views [pick( ...keys )] and [omit( ...keys )] return: each is a
    set of closures over [keys] and over the state. *)
Inductive View :=
| Pick (keys : list string)
| Omit (keys : list string).

#[global] Instance View_eq_dec : EqDecision View.
Proof. solve_decision. Defined.

(** The members of [listeners]: a function the user subscribed, or the
    wrapper [( current ) => listener( filter( current, ... ) )] a view
    subscribed for it; every wrapper is a function of its own, told
    apart by [wid]. *)
Inductive Listener :=
| UserListener (id : nat)
| Wrapper (wid : nat) (v : View) (id : nat).

#[global] Instance Listener_eq_dec : EqDecision Listener.
Proof. solve_decision. Defined.

(** A call of a user function with the value it was given.  Listeners
    are observed through their calls: they are taken to return
    normally and not to call back into the state while it notifies. *)
Definition Call := (nat * StateData)%type.

(** The closure variables [store] and [listeners], the count of
    wrappers made so far, and the calls made so far. *)
Record State := mkState {
  store : StateData;
  listeners : list Listener;
  next_wrapper : nat;
  calls : list Call
}.

(** [new Map( entries )]. *)
Definition new_Map (entries : StateData) : StateData :=
  foldl (fun m kv => assoc_set (fst kv) (snd kv) m) [] entries.

Definition createState (initial : StateData) : State :=
  mkState (new_Map initial) [] 0%nat [].

Definition get (s : State) (key : string) : value :=
  default VUndefined (assoc_get key (store s)).

(** [Object.fromEntries( store )]: the entries in the order of the map
    (the place an object gives to integer-like keys is not modelled). *)
Definition toObject (s : State) : StateData := store s.

Definition entries (s : State) : StateData := store s.

(** [filter( obj, predicate )], on the snapshots [toObject] makes: the
    own properties of [filtered].  The keys of an object are distinct,
    so copying the accepted ones in turn keeps them in order.  The
    assignment [filtered[ key ] = obj[ key ]] at the key [__proto__]
    reaches the accessor [Object.prototype] has under that name and
    makes no own property (it replaces the prototype of [filtered]
    when the value is an object or [null]), so that key is never
    copied.  A value that has become the prototype of [filtered] is
    taken to define neither an accessor nor a read-only property under
    a later key. *)
Definition filter (obj : StateData) (predicate : string -> bool) : StateData :=
  List.filter (fun kv => predicate (fst kv) && negb (String.eqb (fst kv) "__proto__"))
              obj.

(** [keySet.has( k )] and its negation. *)
Definition view_predicate (v : View) (k : string) : bool :=
  match v with
  | Pick keys => bool_decide (k ∈ keys)
  | Omit keys => negb (bool_decide (k ∈ keys))
  end.

(** [listener( current )]. *)
Definition call_listener (l : Listener) (current : StateData) : Call :=
  match l with
  | UserListener id => (id, current)
  | Wrapper _ v id => (id, filter current (view_predicate v))
  end.

Definition notify (s : State) : State :=
  let current := toObject s in
  mkState (store s) (listeners s) (next_wrapper s)
          (calls s ++ map (fun listener => call_listener listener current) (listeners s)).

Definition with_store (m : StateData) (s : State) : State :=
  mkState m (listeners s) (next_wrapper s) (calls s).

(** The body shared by [set] and the loop of [update]:
    [undefined] deletes, anything else is stored. *)
Definition store_write (key : string) (v : value) (m : StateData) : StateData :=
  if bool_decide (v = VUndefined) then assoc_delete key m else assoc_set key v m.

Definition set (key : string) (v : value) (s : State) : State :=
  notify (with_store (store_write key v (store s)) s).

(** [update]'s argument: [typeof updater === 'function'] or not. *)
Inductive Updater :=
| UpdaterFunction (f : StateData -> StateData)
| UpdaterObject (changes : StateData).

Definition update (updater : Updater) (s : State) : State :=
  let changes :=
    match updater with
    | UpdaterFunction f => f (toObject s)
    | UpdaterObject changes => changes
    end in
  let keys := assoc_keys changes in
  notify (with_store
            (foldl (fun m key =>
                      store_write key (default VUndefined (assoc_get key changes)) m)
                   (store s) keys)
            s).

(** [subscribe( listener )]; the function it returns is
    [unsubscribe listener]. *)
Definition subscribe (listener : Listener) (s : State) : State :=
  mkState (store s) (set_add listener (listeners s)) (next_wrapper s)
          (calls s ++ [call_listener listener (toObject s)]).

Definition unsubscribe (listener : Listener) (s : State) : State :=
  mkState (store s) (set_delete listener (listeners s)) (next_wrapper s) (calls s).

(** [pick( ...keys )] and [omit( ...keys )] on the state. *)
Definition pick (keys : list string) : View := Pick keys.
Definition omit (keys : list string) : View := Omit keys.

(** The members of a view. *)
Definition view_get (v : View) (s : State) (key : string) : value := get s key.

Definition view_toObject (v : View) (s : State) : StateData :=
  filter (toObject s) (view_predicate v).

Definition view_entries (v : View) (s : State) : StateData :=
  List.filter (fun kv => view_predicate v (fst kv)) (store s).

(** [view.subscribe( listener )] makes a wrapper and subscribes it; the
    result carries the wrapper, which the returned function
    unsubscribes. *)
Definition view_subscribe (v : View) (id : nat) (s : State) : Listener * State :=
  let wrapper := Wrapper (next_wrapper s) v id in
  (wrapper,
   subscribe wrapper
     (mkState (store s) (listeners s) (S (next_wrapper s)) (calls s))).

(** [view.pick( ...pickedKeys )]: both kinds call [pick] of the state. *)
Definition view_pick (v : View) (pickedKeys : list string) : View :=
  pick pickedKeys.

(** [view.omit( ...omittedKeys )]. *)
Definition view_omit (v : View) (omittedKeys : list string) : View :=
  match v with
  | Pick keys =>
      pick (List.filter (fun k => negb (bool_decide (k ∈ omittedKeys))) keys)
  | Omit keys => omit (keys ++ omittedKeys)
  end.

End State.

(** ** The emitter module: [createEmitter] *)

Module Emitter.

(** The members of a topic: a function the user registered, or the
    [wrapper] that [once] registered for it; every wrapper is a
    function of its own, told apart by [wid]. *)
Inductive Callback :=
| UserCallback (id : nat)
| OnceWrapper (wid : nat) (id : nat).

#[global] Instance Callback_eq_dec : EqDecision Callback.
Proof. solve_decision. Defined.

(** A call of a user function: [callback( ...args )] or
    [subscriber( event, ...args )].  Callbacks are observed through
    their calls: they are taken to return normally and not to call back
    into the emitter while it emits. *)
Inductive Call :=
| CallbackCall (id : nat) (args : list value)
| SubscriberCall (id : nat) (event : string) (args : list value).

(** The closure variables [topics] and [subscriptions], the count of
    wrappers made so far, and the calls made so far. *)
Record Emitter := mkEmitter {
  topics : list (string * list Callback);
  subscriptions : list nat;
  next_wrapper : nat;
  calls : list Call
}.

Definition createEmitter : Emitter := mkEmitter [] [] 0%nat [].

Definition with_topics (t : list (string * list Callback)) (e : Emitter) : Emitter :=
  mkEmitter t (subscriptions e) (next_wrapper e) (calls e).

Definition log (c : Call) (e : Emitter) : Emitter :=
  mkEmitter (topics e) (subscriptions e) (next_wrapper e) (calls e ++ [c]).

(** [on( event, callback )]; the function it returns is
    [off event (Some callback)]. *)
Definition on (event : string) (callback : Callback) (e : Emitter) : Emitter :=
  let topic := default [] (assoc_get event (topics e)) in
  with_topics (assoc_set event (set_add callback topic) (topics e)) e.

(** [off( event, callback? )]. *)
Definition off (event : string) (callback : option Callback) (e : Emitter) : Emitter :=
  match assoc_get event (topics e) with
  | Some topic =>
      match callback with
      | None => with_topics (assoc_delete event (topics e)) e
      | Some callback =>
          let topic := set_delete callback topic in
          if (length topic =? 0)%nat then
            with_topics (assoc_delete event (topics e)) e
          else
            with_topics (assoc_set event topic (topics e)) e
      end
  | None => e
  end.

(** [once( event, callback )]: registers a new wrapper. *)
Definition once (event : string) (id : nat) (e : Emitter) : Emitter :=
  let wrapper := OnceWrapper (next_wrapper e) id in
  on event wrapper
     (mkEmitter (topics e) (subscriptions e) (S (next_wrapper e)) (calls e)).

(** The user function a callback ends up calling. *)
Definition target (callback : Callback) : nat :=
  match callback with
  | UserCallback id => id
  | OnceWrapper _ id => id
  end.

(** [callback( ...args )] for a member of the topic of [event]: the
    wrapper of [once] calls its function and then takes itself off. *)
Definition run_callback (event : string) (args : list value)
    (callback : Callback) (e : Emitter) : Emitter :=
  match callback with
  | UserCallback id => log (CallbackCall id args) e
  | OnceWrapper _ id => off event (Some callback) (log (CallbackCall id args) e)
  end.

(** [emit( event, ...args )].  The loop runs over the topic as it is
    when [emit] starts: the only members removed meanwhile are
    wrappers that have just run. *)
Definition emit (event : string) (args : list value) (e : Emitter) : Emitter :=
  let e1 :=
    match assoc_get event (topics e) with
    | Some topic => foldl (fun e callback => run_callback event args callback e) e topic
    | None => e
    end in
  foldl (fun e subscriber => log (SubscriberCall subscriber event args) e)
        e1 (subscriptions e1).

(** [subscribe( callback )]; the function it returns is
    [unsubscribe callback]. *)
Definition subscribe (id : nat) (e : Emitter) : Emitter :=
  mkEmitter (topics e) (set_add id (subscriptions e)) (next_wrapper e) (calls e).

Definition unsubscribe (id : nat) (e : Emitter) : Emitter :=
  mkEmitter (topics e) (set_delete id (subscriptions e)) (next_wrapper e) (calls e).

Definition clear (e : Emitter) : Emitter :=
  mkEmitter [] [] (next_wrapper e) (calls e).

(** The callbacks of a topic that stay after an [emit]. *)
Definition is_user (callback : Callback) : bool :=
  match callback with
  | UserCallback _ => true
  | OnceWrapper _ _ => false
  end.

(** No event is mapped to an empty set, and a set holds no member
    twice. *)
Definition well_formed (e : Emitter) : Prop :=
  ∀ event topic,
    assoc_get event (topics e) = Some topic → topic ≠ [] ∧ NoDup topic.

End Emitter.

(** The wrappers of [once] in the topics were all made by this emitter. *)
Definition once_wrappers_known (e : Emitter.Emitter) : Prop :=
  ∀ event topic wid id,
    assoc_get event (Emitter.topics e) = Some topic →
    Emitter.OnceWrapper wid id ∈ topic →
    (wid < Emitter.next_wrapper e)%nat.

(** The wrappers in [listeners] were all made by this state. *)
Definition wrappers_known (s : State.State) : Prop :=
  ∀ wid v id, State.Wrapper wid v id ∈ State.listeners s →
              (wid < State.next_wrapper s)%nat.

(** * Properties *)

(** ** Tables *)

Section AssocFacts.
Context {K : Type} `{EqDecision K} {V : Type}.
Implicit Types (k : K) (v : V) (m : list (K * V)).

Lemma assoc_get_set_eq k v m : assoc_get k (assoc_set k v m) = Some v.
Proof.
  induction m as [|[k' v'] m IH]; simpl.
  - case_decide; congruence.
  - case_decide; simpl; case_decide; congruence.
Qed.

Lemma assoc_get_set_ne k k' v m :
  k ≠ k' → assoc_get k (assoc_set k' v m) = assoc_get k m.
Proof.
  intros Hne. induction m as [|[k0 v0] m IH]; simpl.
  - case_decide; congruence.
  - destruct (decide (k' = k0)) as [->|]; simpl.
    + destruct (decide (k = k0)); congruence.
    + destruct (decide (k = k0)); congruence.
Qed.

Lemma assoc_get_None k m : assoc_get k m = None ↔ k ∉ assoc_keys m.
Proof.
  unfold assoc_keys. induction m as [|[k' v'] m IH]; simpl.
  - split; [intros _; apply not_elem_of_nil | done].
  - rewrite not_elem_of_cons. case_decide; subst.
    + split; [done | intros [? _]; congruence].
    + rewrite IH. tauto.
Qed.

Lemma assoc_get_app_r k m1 m2 :
  k ∉ assoc_keys m1 → assoc_get k (m1 ++ m2) = assoc_get k m2.
Proof.
  unfold assoc_keys. induction m1 as [|[k' v'] m1 IH]; simpl; [done|].
  rewrite not_elem_of_cons. intros [Hne Hnin].
  case_decide; [congruence | auto].
Qed.

Lemma assoc_set_fresh k v m :
  k ∉ assoc_keys m → assoc_set k v m = m ++ [(k, v)].
Proof.
  unfold assoc_keys. induction m as [|[k' v'] m IH]; simpl; [done|].
  rewrite not_elem_of_cons. intros [Hne Hnin].
  case_decide; [congruence | by rewrite IH].
Qed.

Lemma assoc_get_lookup_NoDup m k v i :
  NoDup (assoc_keys m) → m !! i = Some (k, v) → assoc_get k m = Some v.
Proof.
  unfold assoc_keys. revert i. induction m as [|[k' v'] m IH]; intros i; simpl.
  - intros _ Hi. by rewrite lookup_nil in Hi.
  - rewrite NoDup_cons. intros [Hnin Hnd] Hi. destruct i as [|i]; simpl in Hi.
    + injection Hi as -> ->. by rewrite decide_True.
    + case_decide; subst.
      * exfalso. apply Hnin. apply list_elem_of_fmap.
        exists (k', v). split; [done|]. by eapply list_elem_of_lookup_2.
      * by eapply IH.
Qed.

End AssocFacts.

(** ** [design] *)

(** [design( setup )] at a function wraps that function. *)
Lemma design1_mkDesign {TDeps TInstance} (setup : TDeps -> M TInstance) :
  design1 setup = Ok (mkDesign setup).
Proof. reflexivity. Qed.

Lemma isComponentDesign_arg_of_design {TIn TOut TDeps TInstance}
    (d : ComponentDesign TDeps TInstance) :
  isComponentDesign (arg_of_design (TIn := TIn) (TOut := TOut) d) = true.
Proof. reflexivity. Qed.

(** With a function as child, the parent is created first, on the same
    dependencies, and its instance is handed to the child. *)
Lemma design_parent_setup {TDeps TParent TInstance}
    (P : ComponentDesign TDeps TParent) (child : TParent -> M TInstance) :
  design (arg_of_design P) (ArgFunction child)
  = Ok (mkDesign (fun deps => parent <- create P deps ;; child parent)).
Proof. reflexivity. Qed.

(** C2, as the code has it: with a design as child, [create] of the
    combined design is exactly the child's [create]; the parent's
    [create] is not part of it. *)
Theorem design_child_design_only_child {TDeps TParent TInstance}
    (P : ComponentDesign TDeps TParent) (C : ComponentDesign TDeps TInstance) :
  ∃ D, design (arg_of_design P) (arg_of_design C) = Ok D
       ∧ ∀ d w, create D d w = create C d w.
Proof. eexists. split; [reflexivity | done]. Qed.

(** C2, as stated, fails: [design( Parent, Child ).create()] returns
    the child's instance and leaves the state as it was, with [built]
    at 0; creating the parent first and the child after it leaves
    [built] at 1. *)
Lemma design_child_design_skips_parent :
  ∃ D, design (arg_of_design DesignParent) (arg_of_design DesignChild) = Ok D
       ∧ create D tt counter_world = (Ok (VNumber 20), counter_world)
       ∧ fst (read_counter "built" (snd (create D tt counter_world))) = Ok 0
       ∧ fst (read_counter "built"
                (snd ((_ <- create DesignParent tt ;; create DesignChild tt)
                        counter_world))) = Ok 1
       ∧ create D tt counter_world
         ≠ (_ <- create DesignParent tt ;; create DesignChild tt) counter_world.
Proof.
  eexists. split; [reflexivity|].
  do 3 (split; [vm_compute; reflexivity|]).
  intros Heq. apply (f_equal (fun r => next_loc (snd r))) in Heq.
  vm_compute in Heq. discriminate.
Qed.

(** C9: with a design as parent, a child that is neither a function
    nor a value exposing a create operation makes the [design] call
    itself raise. *)
Theorem design_invalid_child_raises {TDeps TParent TInstance}
    (parent : DesignArg TDeps TInstance TDeps TParent)
    (child : DesignArg TParent TInstance TDeps TInstance) :
  isComponentDesign parent = true →
  arg_typeof child ≠ TFunction →
  ¬ exposes_create child →
  design parent child = Throw (InvalidArgument invalid_child_msg).
Proof.
  intros Hparent Hfun Hcreate. unfold design. rewrite Hparent. simpl.
  destruct child as [f | [ | f | p] | p]; simpl in *.
  - congruence.
  - reflexivity.
  - exfalso. apply Hcreate. by exists f.
  - by destruct p.
  - destruct p as [ | | b | n | s]; try reflexivity.
    + by destruct b.
    + unfold isComponentDesign. simpl. by destruct (n =? 0).
    + unfold isComponentDesign. simpl. by destruct (String.eqb s "").
Qed.

Lemma design_invalid_child_raises_witness :
  design (TDeps := unit) (TInstance := value)
         (arg_of_design DesignParent) (ArgPrimitive (PNumber 42))
  = Throw (InvalidArgument invalid_child_msg).
Proof.
  apply design_invalid_child_raises.
  - reflexivity.
  - simpl. discriminate.
  - intros [f Hf]. discriminate.
Defined.

(** ** [with] *)

Lemma spread2_lookup {V} (values deps : gmap string V) (k : string) :
  spread2 values deps !! k
  = match deps !! k with Some x => Some x | None => values !! k end.
Proof.
  unfold spread2. destruct (deps !! k) as [x|] eqn:Hk.
  - by apply lookup_union_Some_l.
  - by rewrite lookup_union_r.
Qed.

(** C7: pre-filling [k] and creating with [rest] is creating with
    [{ ...rest, k: v }] when [rest] has no [k]; in general the setup
    receives the pre-filled values overlaid with the caller's, so the
    caller's value wins a collision. *)
Theorem with_create {V TInstance}
    (D : ComponentDesign (gmap string V) TInstance)
    (k : string) (v : V) (rest : gmap string V) :
  rest !! k = None →
  create (with_ D {[ k := v ]}) rest = create D (<[ k := v ]> rest)
  ∧ (∀ values deps : gmap string V,
       create (with_ D values) deps = create D (spread2 values deps))
  ∧ (∀ (values deps : gmap string V) (j : string) (x : V),
       deps !! j = Some x → spread2 values deps !! j = Some x).
Proof.
  intros Hk. split; [|split].
  - unfold create, with_, makeWithTransform, makeCreate, spread2. simpl.
    by rewrite (insert_union_singleton_r rest k v Hk).
  - reflexivity.
  - intros values deps j x Hj. by rewrite spread2_lookup, Hj.
Qed.

Lemma with_create_witness :
  create (with_ DesignPort {[ "port" := VNumber 5432 ]}) sample_rest
  = create DesignPort (<[ "port" := VNumber 5432 ]> sample_rest).
Proof.
  apply (with_create DesignPort "port" (VNumber 5432) sample_rest).
  reflexivity.
Defined.

(** ** [compose] *)

(** C3, as the code has it: an argument that is neither an array nor a
    plain object is accepted by [compose]; the returned design raises
    on every [create]. *)
Theorem compose_invalid_deferred {TDeps TInstance}
    (designs : ComposeArg TDeps TInstance) :
  Array_isArray designs = false →
  isPlainObject designs = false →
  ∃ D, compose designs = Ok D
       ∧ ∀ deps w,
           create D deps w = (Throw (InvalidArgument invalid_designs_msg), w).
Proof.
  intros Harr Hplain. eexists. split; [reflexivity|].
  intros deps w. unfold create, makeCreate, compose_setup. simpl.
  by rewrite Harr, Hplain.
Qed.

Lemma compose_invalid_deferred_witness :
  ∃ D, compose (TDeps := unit) (TInstance := loc) (ArgValue (PNumber 42)) = Ok D
       ∧ ∀ deps w,
           create D deps w = (Throw (InvalidArgument invalid_designs_msg), w).
Proof.
  apply (compose_invalid_deferred (ArgValue (PNumber 42))); reflexivity.
Defined.

(** C3, as stated, fails: [compose( null )] does not raise. *)
Lemma compose_null_does_not_raise :
  ¬ ∃ e, compose (TDeps := unit) (TInstance := loc) (ArgValue PNull) = Throw e.
Proof. intros [e He]. discriminate. Qed.

Lemma array_map_length {A B} (f : A -> M B) (l : list A) (w w' : World)
    (rs : list B) :
  array_map f l w = (Ok rs, w') → length rs = length l.
Proof.
  revert w w' rs. induction l as [|a l IH]; intros w w' rs; simpl.
  - unfold ret. by intros [= <- _].
  - unfold bind at 1. destruct (f a w) as [[b|e] w1]; [|done].
    unfold bind at 1. destruct (array_map f l w1) as [[bs|e] w2] eqn:Hl; [|done].
    unfold ret. intros [= <- _]. simpl. f_equal. by eapply IH.
Qed.

(** Every element of the array was mapped, at some state, to the
    result in its position. *)
Lemma array_map_lookup {A B} (f : A -> M B) (l : list A) (w w' : World)
    (rs : list B) :
  array_map f l w = (Ok rs, w') →
  ∀ i a, l !! i = Some a →
         ∃ b wi wi', f a wi = (Ok b, wi') ∧ rs !! i = Some b.
Proof.
  revert w w' rs. induction l as [|a0 l IH]; intros w w' rs; simpl.
  - intros _ i a Hi. by rewrite lookup_nil in Hi.
  - unfold bind at 1. destruct (f a0 w) as [[b0|e] w1] eqn:Hf; [|done].
    unfold bind at 1. destruct (array_map f l w1) as [[bs|e] w2] eqn:Hl; [|done].
    unfold ret. intros [= <- _] i a Hi. destruct i as [|i]; simpl in *.
    + injection Hi as <-. by exists b0, w, w1.
    + by eapply IH.
Qed.

Lemma map_loop_keyed {TDeps TInstance} (deps : TDeps)
    (post pre : ComponentDesignMap TDeps TInstance)
    (result : MapResult TInstance) (w : World) :
  NoDup (assoc_keys (pre ++ post)) →
  map_loop (pre ++ post) deps (assoc_keys post) result w
  = (insts <- array_map (fun entry => create (snd entry) deps) post ;;
     ret (foldl (fun r kv => result_assign (fst kv) (snd kv) r) result
                (zip (assoc_keys post) insts))) w.
Proof.
  revert pre result w.
  induction post as [|[key item] post IH]; intros pre result w Hnd.
  - simpl. unfold bind, ret. done.
  - assert (Hfresh : key ∉ assoc_keys pre).
    { unfold assoc_keys in *. rewrite fmap_app in Hnd. simpl in Hnd.
      apply NoDup_app in Hnd as (_ & Hdisj & _).
      intros Hin. apply (Hdisj _ Hin). apply list_elem_of_here. }
    simpl. rewrite assoc_get_app_r by done. simpl.
    rewrite decide_True by done.
    unfold bind at 1 2 3. destruct (create item deps w) as [[inst|e] w1]; [|done].
    replace (pre ++ (key, item) :: post) with ((pre ++ [(key, item)]) ++ post)
      by (by rewrite <- app_assoc).
    rewrite IH.
    + unfold bind, ret.
      by destruct (array_map _ post w1) as [[insts|e] w2].
    + by rewrite <- app_assoc.
Qed.

(** Assignments under fresh keys other than [__proto__] append to the
    own properties of [result] and leave its prototype alone. *)
Lemma result_assign_fresh {TInstance} (kvs : list (string * TInstance))
    (result : MapResult TInstance) :
  NoDup (assoc_keys (result_props result ++ kvs)) →
  "__proto__" ∉ assoc_keys kvs →
  foldl (fun r kv => result_assign (fst kv) (snd kv) r) result kvs
  = mkMapResult (result_props result ++ kvs) (result_proto result).
Proof.
  revert result. induction kvs as [|[k v] kvs IH]; intros [props pr] Hnd Hp.
  - simpl. by rewrite app_nil_r.
  - cbn [foldl fst snd result_props result_proto] in *.
    assert (Hk : k ≠ "__proto__").
    { intros ->. apply Hp. unfold assoc_keys. simpl. apply list_elem_of_here. }
    assert (Hfresh : k ∉ assoc_keys props).
    { unfold assoc_keys in *. rewrite fmap_app in Hnd. simpl in Hnd.
      apply NoDup_app in Hnd as (_ & Hdisj & _).
      intros Hin. apply (Hdisj _ Hin). apply list_elem_of_here. }
    unfold result_assign at 2. apply String.eqb_neq in Hk. rewrite Hk.
    cbn [result_props result_proto].
    rewrite assoc_set_fresh by done.
    rewrite IH; cbn [result_props result_proto].
    + by rewrite <- app_assoc.
    + by rewrite <- app_assoc.
    + intros Hin. apply Hp. unfold assoc_keys in *. simpl.
      by apply list_elem_of_further.
Qed.

(** C8 at [compose( { [ '__proto__' ]: A } ).create()]: the map has the
    one key [__proto__]; its design runs, and the assignment hands its
    instance to the accessor of [Object.prototype] instead of making
    an own property.  The result has no own key, so its own keys are
    not the keys of the map. *)
Theorem createMapComposedInstance_proto_key :
  assoc_keys map_proto = ["__proto__"]
  ∧ createMapComposedInstance map_proto tt empty_world
    = (Ok (mkMapResult [] (Some 0%nat)), snd (create DesignA tt empty_world))
  ∧ ¬ ∃ result w',
        createMapComposedInstance map_proto tt empty_world = (Ok result, w')
        ∧ assoc_keys (result_props result) = assoc_keys map_proto.
Proof.
  split; [reflexivity|]. split; [reflexivity|].
  intros (result & w' & Hrun & Hkeys).
  vm_compute in Hrun. injection Hrun as <- _. discriminate.
Qed.

(** X29: map mode, for a map none of whose keys is [__proto__]: every
    design is created against the same [deps], in key order, and the
    result holds under each key of the map the instance its design
    returned; its own keys are the keys of the map and its prototype
    is left alone. *)
Theorem createMapComposedInstance_keyed {TDeps TInstance}
    (items : ComponentDesignMap TDeps TInstance) (deps : TDeps) (w : World) :
  NoDup (assoc_keys items) →
  "__proto__" ∉ assoc_keys items →
  createMapComposedInstance items deps w
  = (o <- keyed_instances items deps ;; ret (mkMapResult o None)) w
  ∧ ∀ result w',
      createMapComposedInstance items deps w = (Ok result, w') →
      assoc_keys (result_props result) = assoc_keys items
      ∧ result_proto result = None
      ∧ ∀ i key item,
          items !! i = Some (key, item) →
          ∃ inst wi wi',
            create item deps wi = (Ok inst, wi')
            ∧ result_props result !! i = Some (key, inst)
            ∧ assoc_get key (result_props result) = Some inst.
Proof.
  intros Hnd Hproto.
  assert (Heq : createMapComposedInstance items deps w
                = (o <- keyed_instances items deps ;; ret (mkMapResult o None)) w).
  { unfold createMapComposedInstance.
    pose proof (map_loop_keyed deps items [] (mkMapResult [] None) w Hnd) as Hloop.
    simpl in Hloop. rewrite Hloop.
    unfold keyed_instances, bind, ret.
    destruct (array_map _ items w) as [[insts|e] w1] eqn:Hmap; [|done].
    pose proof (array_map_length _ _ _ _ _ Hmap) as Hlen.
    assert (Hkeys : assoc_keys (zip (assoc_keys items) insts) = assoc_keys items).
    { unfold assoc_keys. apply fst_zip. rewrite length_fmap. lia. }
    rewrite result_assign_fresh; cbn [result_props result_proto app]; [done| |].
    - by rewrite Hkeys.
    - by rewrite Hkeys. }
  split; [done|].
  intros result w' Hrun. rewrite Heq in Hrun.
  unfold keyed_instances, bind, ret in Hrun.
  destruct (array_map _ items w) as [[insts|e] w1] eqn:Hmap; [|done].
  injection Hrun as <- <-. cbn [result_props result_proto].
  pose proof (array_map_length _ _ _ _ _ Hmap) as Hlen.
  assert (Hkeys : assoc_keys (zip (assoc_keys items) insts) = assoc_keys items).
  { unfold assoc_keys. apply fst_zip. rewrite length_fmap. lia. }
  split; [done|]. split; [done|].
  intros i key item Hi.
  destruct (array_map_lookup _ _ _ _ _ Hmap i (key, item) Hi)
    as (inst & wi & wi' & Hcreate & Hinst).
  assert (Hres : zip (assoc_keys items) insts !! i = Some (key, inst)).
  { apply lookup_zip_Some. split; [|done].
    unfold assoc_keys. rewrite list_lookup_fmap.
    change (fst <$> items !! i = Some key). by rewrite Hi. }
  exists inst, wi, wi'. split; [done|]. split; [done|].
  apply (assoc_get_lookup_NoDup _ _ _ i); [by rewrite Hkeys | done].
Qed.

Lemma createMapComposedInstance_keyed_witness :
  createMapComposedInstance map_xy tt empty_world
  = (o <- keyed_instances map_xy tt ;; ret (mkMapResult o None)) empty_world.
Proof.
  apply (createMapComposedInstance_keyed map_xy tt empty_world).
  - unfold map_xy, assoc_keys. simpl.
    apply NoDup_cons. split.
    + rewrite list_elem_of_singleton. discriminate.
    + apply NoDup_singleton.
  - unfold map_xy, assoc_keys. simpl.
    rewrite !elem_of_cons, elem_of_nil. intros [?|[?|?]]; done.
Defined.

(** ** The plan *)

Lemma getOwnPropertyDescriptor_keys (props : list (PropertyKey * PropertyDescriptor))
    (k : PropertyKey) :
  k ∈ assoc_keys props ↔ is_Some (getOwnPropertyDescriptor props k).
Proof.
  unfold getOwnPropertyDescriptor.
  destruct (assoc_get k props) as [d|] eqn:Hk.
  - split; [by eexists|]. intros _.
    destruct (decide (k ∈ assoc_keys props)) as [|Hnin]; [done|].
    apply assoc_get_None in Hnin. congruence.
  - apply assoc_get_None in Hk. split; [done|]. by intros [? ?].
Qed.

(** The own-key loop, key by key: an own key gets this instance and its
    descriptor, any other key keeps what the plan had. *)
Lemma add_own_keys_lookup (i : nat) (inst : JsObject) (pm : PropertyMap)
    (k : PropertyKey) :
  assoc_get k (add_own_keys i inst pm)
  = match getOwnPropertyDescriptor (own_props inst) k with
    | Some d => Some (mkEntry i d None)
    | None => assoc_get k pm
    end.
Proof.
  unfold add_own_keys, Reflect_ownKeys.
  pose proof (getOwnPropertyDescriptor_keys (own_props inst) k) as Hin.
  revert Hin. generalize (assoc_keys (own_props inst)) as ks. intros ks Hin.
  set (F := fun (pm : PropertyMap) key =>
              match getOwnPropertyDescriptor (own_props inst) key with
              | Some desc => assoc_set key (mkEntry i desc None) pm
              | None => pm
              end).
  set (own := match getOwnPropertyDescriptor (own_props inst) k with
              | Some d => Some (mkEntry i d None)
              | None => assoc_get k pm
              end).
  assert (Hstep : ∀ pm0 key,
            assoc_get k (F pm0 key)
            = if decide (key = k)
              then match getOwnPropertyDescriptor (own_props inst) k with
                   | Some d => Some (mkEntry i d None)
                   | None => assoc_get k pm0
                   end
              else assoc_get k pm0).
  { intros pm0 key. unfold F. destruct (decide (key = k)) as [->|Hne].
    - destruct (getOwnPropertyDescriptor (own_props inst) k); [|done].
      apply assoc_get_set_eq.
    - destruct (getOwnPropertyDescriptor (own_props inst) key); [|done].
      by apply assoc_get_set_ne. }
  assert (Hgen : ∀ pm0,
            assoc_get k (foldl F pm0 ks)
            = if decide (k ∈ ks)
              then match getOwnPropertyDescriptor (own_props inst) k with
                   | Some d => Some (mkEntry i d None)
                   | None => assoc_get k pm0
                   end
              else assoc_get k pm0).
  { clear Hin own. induction ks as [|key ks IH]; intros pm0.
    - by rewrite decide_False by apply not_elem_of_nil.
    - change (foldl F pm0 (key :: ks)) with (foldl F (F pm0 key) ks).
      rewrite IH, Hstep. destruct (decide (key = k)) as [->|Hne].
      + rewrite (decide_True (P := k ∈ k :: ks)) by apply list_elem_of_here.
        destruct (decide (k ∈ ks)); [|done].
        by destruct (getOwnPropertyDescriptor (own_props inst) k).
      + destruct (decide (k ∈ ks)) as [Hks|Hks].
        * by rewrite decide_True by (by apply list_elem_of_further).
        * rewrite decide_False; [done|].
          rewrite elem_of_cons. intros [->|?]; done. }
  rewrite Hgen. unfold own. destruct (decide (k ∈ ks)) as [Hks|Hks]; [done|].
  destruct (getOwnPropertyDescriptor (own_props inst) k) eqn:Hd; [|done].
  exfalso. apply Hks, Hin. by eexists.
Qed.

(** One prototype: a key the plan already has keeps its entry; a key it
    does not have gets this instance, with the prototype's descriptor. *)
Lemma add_proto_keys_lookup (i : nat) (p : Proto) (pm : PropertyMap)
    (k : PropertyKey) :
  assoc_get k (add_proto_keys i p pm)
  = match assoc_get k pm with
    | Some e => Some e
    | None =>
        match getOwnPropertyDescriptor (proto_props p) k with
        | Some d => Some (mkEntry i d (Some p))
        | None => None
        end
    end.
Proof.
  unfold add_proto_keys.
  pose proof (getOwnPropertyDescriptor_keys (proto_props p) k) as Hin.
  revert Hin. generalize (assoc_keys (proto_props p)) as ks. intros ks Hin.
  set (G := fun (pm : PropertyMap) key =>
              if negb (assoc_has key pm) then
                match getOwnPropertyDescriptor (proto_props p) key with
                | Some desc => assoc_set key (mkEntry i desc (Some p)) pm
                | None => pm
                end
              else pm).
  assert (Hstep : ∀ pm0 key,
            assoc_get k (G pm0 key)
            = if decide (key = k)
              then match assoc_get k pm0 with
                   | Some e => Some e
                   | None =>
                       match getOwnPropertyDescriptor (proto_props p) k with
                       | Some d => Some (mkEntry i d (Some p))
                       | None => None
                       end
                   end
              else assoc_get k pm0).
  { intros pm0 key. unfold G, assoc_has. destruct (decide (key = k)) as [->|Hne].
    - destruct (assoc_get k pm0) as [e|] eqn:Hk; simpl; [done|].
      destruct (getOwnPropertyDescriptor (proto_props p) k); [|done].
      apply assoc_get_set_eq.
    - destruct (assoc_get key pm0); simpl; [done|].
      destruct (getOwnPropertyDescriptor (proto_props p) key); [|done].
      by apply assoc_get_set_ne. }
  assert (Hgen : ∀ pm0,
            assoc_get k (foldl G pm0 ks)
            = match assoc_get k pm0 with
              | Some e => Some e
              | None =>
                  if decide (k ∈ ks)
                  then match getOwnPropertyDescriptor (proto_props p) k with
                       | Some d => Some (mkEntry i d (Some p))
                       | None => None
                       end
                  else None
              end).
  { clear Hin. induction ks as [|key ks IH]; intros pm0.
    - change (foldl G pm0 []) with pm0. destruct (assoc_get k pm0); [done|].
      by rewrite decide_False by apply not_elem_of_nil.
    - change (foldl G pm0 (key :: ks)) with (foldl G (G pm0 key) ks).
      rewrite IH, Hstep. destruct (decide (key = k)) as [->|Hne].
      + rewrite (decide_True (P := k ∈ k :: ks)) by apply list_elem_of_here.
        destruct (assoc_get k pm0); [done|].
        destruct (getOwnPropertyDescriptor (proto_props p) k); [done|].
        by destruct (decide (k ∈ ks)).
      + destruct (assoc_get k pm0); [done|].
        destruct (decide (k ∈ ks)) as [Hks|Hks].
        * by rewrite decide_True by (by apply list_elem_of_further).
        * rewrite decide_False; [done|].
          rewrite elem_of_cons. intros [->|?]; done. }
  rewrite Hgen. destruct (assoc_get k pm); [done|].
  destruct (decide (k ∈ ks)) as [Hks|Hks]; [done|].
  destruct (getOwnPropertyDescriptor (proto_props p) k) eqn:Hd; [|done].
  exfalso. apply Hks, Hin. by eexists.
Qed.

Lemma add_chain_lookup (i : nat) (chain : list Proto) (pm : PropertyMap)
    (k : PropertyKey) :
  assoc_get k (foldl (fun pm p => add_proto_keys i p pm) pm chain)
  = match assoc_get k pm with
    | Some e => Some e
    | None => chain_entry i k chain
    end.
Proof.
  revert pm. induction chain as [|p chain IH]; intros pm; simpl.
  - by destruct (assoc_get k pm).
  - rewrite IH, add_proto_keys_lookup.
    destruct (assoc_get k pm); [done|].
    by destruct (getOwnPropertyDescriptor (proto_props p) k).
Qed.

(** What one instance does to the plan, key by key: an own key takes
    the entry over; an inherited key is entered only where the plan has
    nothing yet. *)
Lemma add_instance_lookup (i : nat) (inst : JsObject) (pm : PropertyMap)
    (k : PropertyKey) :
  assoc_get k (add_instance i inst pm)
  = match getOwnPropertyDescriptor (own_props inst) k with
    | Some d => Some (mkEntry i d None)
    | None =>
        match assoc_get k pm with
        | Some e => Some e
        | None => chain_entry i k (proto_chain inst)
        end
    end.
Proof.
  unfold add_instance. rewrite add_chain_lookup, add_own_keys_lookup.
  by destruct (getOwnPropertyDescriptor (own_props inst) k).
Qed.

(** An instance that defines [k] by inheritance only leaves the entry
    an earlier instance made for [k] as it is. *)
Lemma add_instance_inherited_kept (i : nat) (inst : JsObject) (pm : PropertyMap)
    (k : PropertyKey) (e : PlanEntry) :
  assoc_get k pm = Some e →
  getOwnPropertyDescriptor (own_props inst) k = None →
  assoc_get k (add_instance i inst pm) = Some e.
Proof. intros Hk Hown. by rewrite add_instance_lookup, Hown, Hk. Qed.

Lemma chain_entry_index (i : nat) (k : PropertyKey) (chain : list Proto)
    (e : PlanEntry) :
  chain_entry i k chain = Some e → index e = i.
Proof.
  induction chain as [|p chain IH]; simpl; [done|].
  destruct (getOwnPropertyDescriptor (proto_props p) k); [|done].
  by intros [= <-].
Qed.

(** Every entry of the plan names an instance of the list. *)
Lemma build_from_index (insts : list JsObject) (i : nat) (pm : PropertyMap) :
  (∀ k e, assoc_get k pm = Some e → (index e < i)%nat) →
  ∀ k e, assoc_get k (build_from i insts pm) = Some e →
         (index e < i + length insts)%nat.
Proof.
  revert i pm. induction insts as [|inst insts IH]; intros i pm Hpm k e; simpl.
  - intros Hk. apply Hpm in Hk. lia.
  - intros Hk. apply IH in Hk; [lia|].
    clear k e Hk. intros k e. rewrite add_instance_lookup.
    destruct (getOwnPropertyDescriptor (own_props inst) k).
    + intros [= <-]. simpl. lia.
    + destruct (assoc_get k pm) as [e0|] eqn:Hk0.
      * intros [= <-]. apply Hpm in Hk0. lia.
      * intros He. apply chain_entry_index in He. lia.
Qed.

Lemma build_plan_index (insts : list JsObject) (k : PropertyKey) (e : PlanEntry) :
  assoc_get k (build_plan insts) = Some e → (index e < length insts)%nat.
Proof.
  intros Hk. apply (build_from_index insts 0%nat [] ) in Hk; [done|].
  intros k0 e0 H0. done.
Qed.

(** Instances without an own [k] leave an existing entry for [k] alone,
    whether or not they inherit [k]. *)
Lemma build_from_kept (insts : list JsObject) (i : nat) (pm : PropertyMap)
    (k : PropertyKey) (e : PlanEntry) :
  Forall (fun inst => getOwnPropertyDescriptor (own_props inst) k = None) insts →
  assoc_get k pm = Some e →
  assoc_get k (build_from i insts pm) = Some e.
Proof.
  intros Hall. revert i pm.
  induction Hall as [|inst insts Hown Hall IH]; intros i pm Hk; simpl; [done|].
  apply IH. by apply add_instance_inherited_kept.
Qed.

(** The owner of a key with own definitions: the last instance that has
    [k] as an own property, whatever the instances after it inherit. *)
Lemma build_plan_last_own (before after : list JsObject) (inst : JsObject)
    (k : PropertyKey) (d : PropertyDescriptor) :
  getOwnPropertyDescriptor (own_props inst) k = Some d →
  Forall (fun inst' => getOwnPropertyDescriptor (own_props inst') k = None) after →
  assoc_get k (build_plan (before ++ inst :: after))
  = Some (mkEntry (length before) d None).
Proof.
  intros Hown Hafter. unfold build_plan.
  assert (Hgen : ∀ i pm,
            assoc_get k (build_from i (before ++ inst :: after) pm)
            = Some (mkEntry (i + length before) d None)).
  { induction before as [|b before IH]; intros i pm; simpl.
    - apply build_from_kept; [done|].
      rewrite add_instance_lookup, Hown.
      by rewrite Nat.add_0_r.
    - rewrite IH. by rewrite Nat.add_succ_comm. }
  apply Hgen.
Qed.

Lemma build_from_app (xs ys : list JsObject) (i : nat) (pm : PropertyMap) :
  build_from i (xs ++ ys) pm
  = build_from (i + length xs) ys (build_from i xs pm).
Proof.
  revert i pm. induction xs as [|x xs IH]; intros i pm; simpl.
  - by rewrite Nat.add_0_r.
  - by rewrite IH, Nat.add_succ_comm.
Qed.

Lemma chain_entry_lookup_chain (i : nat) (k : PropertyKey) (chain : list Proto) :
  lookup_chain k chain = None → chain_entry i k chain = None.
Proof.
  induction chain as [|p chain IH]; simpl; [done|].
  by destruct (getOwnPropertyDescriptor (proto_props p) k).
Qed.

Lemma find_property_None (o : JsObject) (k : PropertyKey) :
  find_property o k = None →
  getOwnPropertyDescriptor (own_props o) k = None
  ∧ lookup_chain k (proto_chain o) = None.
Proof.
  unfold find_property.
  by destruct (getOwnPropertyDescriptor (own_props o) k).
Qed.

(** Instances that do not define [k] at all do not enter it. *)
Lemma build_from_absent (insts : list JsObject) (i : nat) (pm : PropertyMap)
    (k : PropertyKey) :
  Forall (fun inst => find_property inst k = None) insts →
  assoc_get k pm = None →
  assoc_get k (build_from i insts pm) = None.
Proof.
  intros Hall. revert i pm.
  induction Hall as [|inst insts Hnone Hall IH]; intros i pm Hk; simpl; [done|].
  apply IH. apply find_property_None in Hnone as [Hown Hchain].
  rewrite add_instance_lookup, Hown, Hk.
  by apply chain_entry_lookup_chain.
Qed.

(** The owner of a key that no instance has as an own property: the
    first instance that inherits it, with the nearest prototype that
    defines it; the instances after it change nothing. *)
Lemma build_plan_first_inherited (before after : list JsObject) (inst : JsObject)
    (k : PropertyKey) (e : PlanEntry) :
  Forall (fun b => find_property b k = None) before →
  getOwnPropertyDescriptor (own_props inst) k = None →
  chain_entry (length before) k (proto_chain inst) = Some e →
  Forall (fun a => getOwnPropertyDescriptor (own_props a) k = None) after →
  assoc_get k (build_plan (before ++ inst :: after)) = Some e.
Proof.
  intros Hbefore Hown Hchain Hafter. unfold build_plan.
  rewrite build_from_app. simpl.
  apply build_from_kept; [done|].
  rewrite add_instance_lookup, Hown.
  by rewrite (build_from_absent before 0%nat [] k Hbefore eq_refl).
Qed.

(** C1 at [compose( [ A, B ] )], where [A]'s instance has the own key
    [value] and [B]'s instance inherits [value] from its prototype:
    [B]'s instance is the last one that defines the key, and the plan
    gives the key to [A]'s instance. *)
Theorem plan_inherited_key_keeps_earlier_owner :
  ∃ f w,
    createListComposedInstance list_AB tt empty_world = (Ok f, w)
    ∧ instances f = [0%nat; 1%nat]
    ∧ find_property (heap_get w 1%nat) (KString "value")
      = Some (DataDesc (VFunction 7%nat) true)
    ∧ assoc_get (KString "value") (propertyMap f)
      = Some (mkEntry 0%nat (DataDesc (VString "A") true) None)
    ∧ facade_get sample_call f (KString "value") w = (Ok (VString "A"), w).
Proof.
  eexists. eexists. split; [vm_compute; reflexivity|].
  repeat split; vm_compute; reflexivity.
Qed.

(** ** The plan cache *)

(** With the plan of the list in the cache, [create] instantiates every
    design again and wraps the new instances with the cached plan; the
    engine itself writes nothing. *)
Lemma createListComposedInstance_cached {TDeps}
    (items : ComponentDesignList TDeps) (deps : TDeps) (w : World)
    (pm : PropertyMap) :
  listComposedPropertyMapCache w !! list_id items = Some pm →
  createListComposedInstance items deps w
  = (insts <- instantiate items deps ;; ret (mkFacade insts pm)) w.
Proof. intros Hc. unfold createListComposedInstance. by rewrite Hc. Qed.

(** Without it, the plan is built from the instances just created and
    stored under the identity of the list. *)
Lemma createListComposedInstance_fresh {TDeps}
    (items : ComponentDesignList TDeps) (deps : TDeps) (w : World)
    (f : Facade) (w1 : World) :
  listComposedPropertyMapCache w !! list_id items = None →
  createListComposedInstance items deps w = (Ok f, w1) →
  ∃ w',
    instantiate items deps w = (Ok (instances f), w')
    ∧ propertyMap f = build_plan (heap_get w' <$> instances f)
    ∧ w1 = cache_set (list_id items) (propertyMap f) w'
    ∧ listComposedPropertyMapCache w1 !! list_id items = Some (propertyMap f).
Proof.
  intros Hc. unfold createListComposedInstance. rewrite Hc. unfold bind.
  destruct (instantiate items deps w) as [[insts|e] w'] eqn:Hrun; [|done].
  intros [= <- <-]. exists w'. simpl. repeat split.
  apply lookup_insert_eq.
Qed.

(** In the facade of such a first call every entry of the plan has its
    owning instance. *)
Lemma fresh_facade_owner {TDeps}
    (items : ComponentDesignList TDeps) (deps : TDeps) (w : World)
    (f : Facade) (w1 : World) (k : PropertyKey) (e : PlanEntry) :
  listComposedPropertyMapCache w !! list_id items = None →
  createListComposedInstance items deps w = (Ok f, w1) →
  assoc_get k (propertyMap f) = Some e →
  is_Some (instances f !! index e).
Proof.
  intros Hc Hrun Hk.
  destruct (createListComposedInstance_fresh _ _ _ _ _ Hc Hrun)
    as (w' & _ & Hplan & _).
  rewrite Hplan in Hk. apply build_plan_index in Hk.
  rewrite length_fmap in Hk. by apply lookup_lt_is_Some.
Qed.

(** A second [create] on the same list, right after the first: the
    designs are instantiated again, the plan of the first call is
    reused. *)
Lemma createListComposedInstance_again {TDeps}
    (items : ComponentDesignList TDeps) (deps : TDeps) (w : World)
    (f : Facade) (w1 : World) :
  listComposedPropertyMapCache w !! list_id items = None →
  createListComposedInstance items deps w = (Ok f, w1) →
  createListComposedInstance items deps w1
  = (insts <- instantiate items deps ;; ret (mkFacade insts (propertyMap f))) w1.
Proof.
  intros Hc Hrun.
  destruct (createListComposedInstance_fresh _ _ _ _ _ Hc Hrun)
    as (w' & _ & _ & _ & Hcached).
  by apply createListComposedInstance_cached.
Qed.

(** C6 at [compose( [ Counter ] )], whose instances expose the
    variable [n] of their own setup call through the accessor [id]:
    the second [create] runs the setup again (the counter [next]
    reaches 2) and reuses the plan, and reading [id] through the second
    facade answers with the [n] of the first call (0), not with that of
    its own instance (1). *)
Theorem second_facade_reads_first_run_getter :
  ∃ f1 w1 f2 w2,
    createListComposedInstance list_counter tt counter_world = (Ok f1, w1)
    ∧ createListComposedInstance list_counter tt w1 = (Ok f2, w2)
    ∧ instances f1 = [2%nat]
    ∧ instances f2 = [4%nat]
    ∧ fst (read_counter "next" w2) = Ok 2
    ∧ propertyMap f2 = propertyMap f1
    ∧ listComposedPropertyMapCache w2 = listComposedPropertyMapCache w1
    ∧ js_get sample_call 4%nat (KString "id") w2 = (Ok (VNumber 1), w2)
    ∧ facade_get sample_call f2 (KString "id") w2 = (Ok (VNumber 0), w2).
Proof.
  do 4 eexists. split; [vm_compute; reflexivity|].
  split; [vm_compute; reflexivity|].
  repeat split; vm_compute; reflexivity.
Qed.

(** ** Reading through the facade *)

Section FacadeFacts.
Variable call : fid -> value -> list value -> M value.
Implicit Types (f : Facade) (k : PropertyKey) (e : PlanEntry) (w : World).

(** An entry with a getter: the getter is called on the owning
    instance, at every read. *)
Lemma facade_get_getter f k e g s w :
  assoc_get k (propertyMap f) = Some e →
  desc e = AccessorDesc (Some g) s →
  typeof g = TFunction →
  facade_get call f k w
  = call_value call g (instance_value (instances f !! index e)) [] w.
Proof.
  intros Hk Hd Hg. unfold facade_get. rewrite Hk, Hd. simpl.
  by rewrite bool_decide_eq_true_2.
Qed.


(** An inherited function: returned bound to the owning instance. *)
Lemma facade_get_inherited_method f k e v wr p w :
  assoc_get k (propertyMap f) = Some e →
  desc e = DataDesc v wr →
  proto e = Some p →
  typeof v = TFunction →
  facade_get call f k w
  = (Ok (VBound v (instance_value (instances f !! index e))), w).
Proof.
  intros Hk Hd Hp Hv. unfold facade_get. rewrite Hk, Hd, Hp. simpl.
  rewrite Hv. reflexivity.
Qed.

(** A data entry whose value was [undefined] when the plan was built
    reads as [undefined], whatever the instance holds now. *)
Lemma facade_get_data_undefined f k e wr w :
  assoc_get k (propertyMap f) = Some e →
  desc e = DataDesc VUndefined wr →
  facade_get call f k w = (Ok VUndefined, w).
Proof. intros Hk Hd. unfold facade_get. by rewrite Hk, Hd. Qed.

(** ** Writing through the facade *)

Lemma facade_set_setter f k e g s v w :
  assoc_get k (propertyMap f) = Some e →
  desc e = AccessorDesc g (Some s) →
  typeof s = TFunction →
  facade_set call f k v w
  = (_ <- call_value call s (instance_value (instances f !! index e)) [v] ;;
     ret true) w.
Proof.
  intros Hk Hd Hs. unfold facade_set. rewrite Hk, Hd. simpl.
  by rewrite bool_decide_eq_true_2.
Qed.


(** A known key that is neither writable nor has a setter takes the
    path of unknown keys. *)
Lemma facade_set_not_writable f k e v w :
  assoc_get k (propertyMap f) = Some e →
  typeof (desc_set (desc e)) ≠ TFunction →
  desc_writable (desc e) = false →
  facade_set call f k v w = set_on_last call f k v w.
Proof.
  intros Hk Hs Hw. unfold facade_set. rewrite Hk, Hw.
  by rewrite bool_decide_eq_false_2.
Qed.




End FacadeFacts.

(** C4 at [compose( [ Blank ] )], whose instance is [{ x: undefined }]:
    the plan gives [x] to that instance, as a writable data property
    whose value was [undefined] when the plan was built.  After [x] is
    assigned 5, directly on the instance or through the facade (which
    reports success), the instance holds 5 and the facade still reads
    [undefined]: the read does not return the current value of the
    owning instance. *)
Theorem facade_get_misses_initially_undefined :
  ∃ f w1 w2,
    createListComposedInstance list_blank tt empty_world = (Ok f, w1)
    ∧ instances f = [0%nat]
    ∧ assoc_get (KString "x") (propertyMap f)
      = Some (mkEntry 0%nat (DataDesc VUndefined true) None)
    ∧ js_set sample_call 0%nat (KString "x") (VNumber 5) w1 = (Ok tt, w2)
    ∧ facade_set sample_call f (KString "x") (VNumber 5) w1 = (Ok true, w2)
    ∧ js_get sample_call 0%nat (KString "x") w2 = (Ok (VNumber 5), w2)
    ∧ facade_get sample_call f (KString "x") w2 = (Ok VUndefined, w2)
    ∧ facade_get sample_call f (KString "x") w2
      ≠ js_get sample_call 0%nat (KString "x") w2.
Proof.
  do 3 eexists. split; [vm_compute; reflexivity|].
  do 3 (split; [vm_compute; reflexivity|]).
  do 3 (split; [vm_compute; reflexivity|]).
  vm_compute. discriminate.
Qed.

Lemma typeof_undefined (v : value) : typeof v = TUndefined ↔ v = VUndefined.
Proof. split; [by destruct v | by intros ->]. Qed.

(** Reading a key of the plan in the three cases that reach the owning
    instance, [instances[ index ]] ([undefined] when the facade has no
    instance at that index).  A getter is called on that instance at
    every read; a data value that was defined when the plan was built
    is read from the instance at the time of the read; an inherited
    function is returned bound to the instance. *)
Theorem facade_get_live (call : fid -> value -> list value -> M value)
    (f : Facade) (k : PropertyKey) (e : PlanEntry) (w : World) :
  assoc_get k (propertyMap f) = Some e →
  (∀ g s,
     desc e = AccessorDesc (Some g) s → typeof g = TFunction →
     facade_get call f k w
     = call_value call g (instance_value (instances f !! index e)) [] w)
  ∧ (∀ v wr,
       desc e = DataDesc v wr → v ≠ VUndefined →
       ¬ (is_Some (proto e) ∧ typeof v = TFunction) →
       facade_get call f k w = get_member call (instances f !! index e) k w)
  ∧ (∀ v wr,
       desc e = DataDesc v wr → is_Some (proto e) → typeof v = TFunction →
       facade_get call f k w
       = (Ok (VBound v (instance_value (instances f !! index e))), w)).
Proof.
  intros Hk. split; [|split].
  - intros g s Hd Hg. by apply (facade_get_getter call f k e g s w).
  - intros v wr Hd Hv Hnot. unfold facade_get. rewrite Hk, Hd. simpl.
    rewrite (bool_decide_eq_false_2 (typeof v = TUndefined))
      by (by rewrite typeof_undefined).
    simpl.
    destruct (bool_decide (is_Some (proto e))) eqn:Hp;
      destruct (bool_decide (typeof v = TFunction)) eqn:Hf; simpl; try done.
    exfalso. apply Hnot. split.
    + by apply bool_decide_eq_true in Hp.
    + by apply bool_decide_eq_true in Hf.
  - intros v wr Hd [p Hp] Hv.
    by apply (facade_get_inherited_method call f k e v wr p w).
Qed.

Lemma facade_get_live_witness :
  facade_get sample_call (facade_of list_counter counter_world) (KString "id")
             (world_of list_counter counter_world)
  = call_value sample_call (VFunction 1%nat) (VObject 2%nat) []
               (world_of list_counter counter_world)
  ∧ facade_get sample_call facade_AY (KString "value") world_AY
    = js_get sample_call 0%nat (KString "value") world_AY
  ∧ facade_get sample_call (facade_of list_B empty_world) (KString "value")
               (world_of list_B empty_world)
    = (Ok (VBound (VFunction 7%nat) (VObject 0%nat)), world_of list_B empty_world).
Proof.
  split; [|split].
  - destruct (facade_get_live sample_call (facade_of list_counter counter_world)
                (KString "id")
                (mkEntry 0%nat (AccessorDesc (Some (VFunction 1%nat)) None) None)
                (world_of list_counter counter_world) eq_refl)
      as (Hg & _ & _).
    exact (Hg (VFunction 1%nat) None eq_refl eq_refl).
  - destruct (facade_get_live sample_call facade_AY (KString "value")
                (mkEntry 0%nat (DataDesc (VString "A") true) None)
                world_AY eq_refl) as (_ & Hd & _).
    apply (Hd (VString "A") true eq_refl).
    + discriminate.
    + intros [[p Hp] _]. discriminate.
  - destruct (facade_get_live sample_call (facade_of list_B empty_world)
                (KString "value")
                (mkEntry 0%nat (DataDesc (VFunction 7%nat) true) (Some B_prototype))
                (world_of list_B empty_world) eq_refl)
      as (_ & _ & Hm).
    apply (Hm (VFunction 7%nat) true eq_refl); [by eexists | reflexivity].
Defined.

(** C5 at [compose( [ Frozen, Y ] )], whose first instance is the
    frozen [{ x: 1 }]: assigning [x] through the facade reports
    success and creates [x] on the last instance; the facade goes on
    reading the frozen 1. *)
Theorem facade_set_readonly_lands_on_last :
  ∃ f w1 w2,
    createListComposedInstance list_FY tt empty_world = (Ok f, w1)
    ∧ instances f = [0%nat; 1%nat]
    ∧ assoc_get (KString "x") (propertyMap f)
      = Some (mkEntry 0%nat (DataDesc (VNumber 1) false) None)
    ∧ own_props (heap_get w1 1%nat) = [data "y" (VNumber 2)]
    ∧ facade_set sample_call f (KString "x") (VNumber 5) w1 = (Ok true, w2)
    ∧ own_props (heap_get w2 1%nat)
      = [data "y" (VNumber 2); data "x" (VNumber 5)]
    ∧ facade_get sample_call f (KString "x") w2 = (Ok (VNumber 1), w2).
Proof.
  do 3 eexists. split; [vm_compute; reflexivity|].
  do 3 (split; [vm_compute; reflexivity|]).
  split; [vm_compute; reflexivity|].
  repeat split; vm_compute; reflexivity.
Qed.




(** * Further properties of the engine *)

(** ** Chained transforms and chained designs *)

(** X1: [.with( a ).with( b )] creates what [.with( { ...a, ...b } )]
    creates: the setup receives the caller's dependencies over [b] over
    [a], so the later pre-fill wins where the two collide. *)
Theorem with_with {V TInstance}
    (D : ComponentDesign (gmap string V) TInstance)
    (a b deps : gmap string V) :
  create (with_ (with_ D a) b) deps = create (with_ D (spread2 a b)) deps
  ∧ create (with_ (with_ D a) b) deps = create D (deps ∪ b ∪ a)
  ∧ ∀ (k : string) (x : V),
      deps !! k = None → b !! k = Some x → (deps ∪ b ∪ a) !! k = Some x.
Proof.
  split; [|split].
  - unfold create, with_, makeWithTransform, makeCreate, spread2. simpl.
    by rewrite (assoc_L (∪)).
  - reflexivity.
  - intros k x Hd Hb. apply lookup_union_Some_l.
    by rewrite lookup_union_r.
Qed.

(** X2: when the first argument is not a design, [design] never raises
    and never looks at the second argument: a function becomes the
    setup, anything else yields a design whose [create] raises. *)
Theorem design_first_not_design {TDeps TParent TInstance}
    (setupOrParent : DesignArg TDeps TInstance TDeps TParent)
    (child : DesignArg TParent TInstance TDeps TInstance) :
  isComponentDesign setupOrParent = false →
  ∃ D, design setupOrParent child = Ok D
       ∧ match setupOrParent with
         | ArgFunction setup => ∀ d w, create D d w = setup d w
         | _ => ∀ d w, create D d w = (Throw TypeError, w)
         end.
Proof.
  intros Hnot. unfold design. rewrite Hnot. simpl.
  eexists. split; [reflexivity|].
  by destruct setupOrParent.
Qed.

Lemma design_first_not_design_witness :
  ∃ D, design (TDeps := unit) (TParent := loc) (TInstance := value)
         (ArgFunction (fun _ => ret (VNumber 1))) (ArgPrimitive (PNumber 42)) = Ok D
       ∧ ∀ d w, create D d w = (Ok (VNumber 1), w).
Proof.
  apply (design_first_not_design
           (ArgFunction (fun _ : unit => ret (VNumber 1))) (ArgPrimitive (PNumber 42))).
  reflexivity.
Defined.

Lemma bind_assoc {A B C} (c : M A) (f : A -> M B) (g : B -> M C) (w : World) :
  (y <- (x <- c ;; f x) ;; g y) w = (x <- c ;; y <- f x ;; g y) w.
Proof.
  unfold bind. destruct (c w) as [[a|e] w1]; [|done].
  by destruct (f a w1) as [[b|e] w2].
Qed.

(** X3: stacking child setups is composing them:
    [design( design( P, f ), g )] creates what [design( P, p => g( f( p ) ) )]
    creates, with the parent created once, first, on the same
    dependencies, and an exception of an earlier stage ending the
    creation. *)
Theorem design_chain {TDeps TParent TMid TInstance}
    (P : ComponentDesign TDeps TParent)
    (f : TParent -> M TMid) (g : TMid -> M TInstance) :
  ∃ D1 D2 D3,
    design (TInstance := TMid) (arg_of_design P) (ArgFunction f) = Ok D1
    ∧ design (arg_of_design D1) (ArgFunction g) = Ok D2
    ∧ design (arg_of_design P) (ArgFunction (fun p => x <- f p ;; g x)) = Ok D3
    ∧ (∀ d w, create D2 d w = create D3 d w)
    ∧ (∀ d w e w1, create P d w = (Throw e, w1) → create D2 d w = (Throw e, w1))
    ∧ (∀ d w p w1 e w2,
         create P d w = (Ok p, w1) → f p w1 = (Throw e, w2) →
         create D2 d w = (Throw e, w2)).
Proof.
  do 3 eexists. split; [reflexivity|]. split; [reflexivity|].
  split; [reflexivity|]. split; [|split].
  - intros d w. unfold create, makeCreate. simpl. apply bind_assoc.
  - intros d w e w1 HP.
    change ((y <- (x <- create P d ;; f x) ;; g y) w = (Throw e, w1)).
    unfold bind. by rewrite HP.
  - intros d w p w1 e w2 HP Hf.
    change ((y <- (x <- create P d ;; f x) ;; g y) w = (Throw e, w2)).
    unfold bind. by rewrite HP, Hf.
Qed.

Lemma design_chain_witness :
  ∃ D1 D2,
    design (TInstance := value) (arg_of_design DesignThrow)
           (ArgFunction (fun p : loc => ret (VObject p))) = Ok D1
    ∧ design (TInstance := value) (arg_of_design D1)
             (ArgFunction (fun v : value => ret v)) = Ok D2
    ∧ create D2 tt empty_world = (Throw (Thrown (VString "boom")), empty_world).
Proof.
  destruct (design_chain DesignThrow (fun p : loc => ret (VObject p))
              (fun v : value => ret v))
    as (D1 & D2 & D3 & H1 & H2 & _ & _ & Hthrow & _).
  exists D1, D2. split; [exact H1|]. split; [exact H2|].
  apply Hthrow. reflexivity.
Defined.

(** ** Creating composed instances *)

(** The instances [items.map( ... )] has produced when it stops at a
    design that raises. *)
Lemma array_map_throw {A B} (f : A -> M B) (before after : list A) (a : A)
    (w w1 w2 : World) (bs : list B) (e : Error) :
  array_map f before w = (Ok bs, w1) →
  f a w1 = (Throw e, w2) →
  array_map f (before ++ a :: after) w = (Throw e, w2).
Proof.
  revert w bs. induction before as [|x before IH]; intros w bs; simpl.
  - unfold ret. intros [= <- <-] Hf. unfold bind. by rewrite Hf.
  - unfold bind at 1 3. destruct (f x w) as [[b|e0] w0]; [|done].
    unfold bind at 1 2.
    destruct (array_map f before w0) as [[bs0|e0] w3] eqn:Hrest; [|done].
    unfold ret. intros [= <- <-] Hf.
    by rewrite (IH _ _ Hrest Hf).
Qed.

(** X4: a setup that raises ends the list-mode [create] with its
    exception, in the state it left: the designs after it are not
    instantiated, no facade is returned and the engine stores no plan. *)
Theorem createListComposedInstance_aborts {TDeps}
    (items : ComponentDesignList TDeps) (deps : TDeps)
    (before after : list (ComponentDesign TDeps loc))
    (D : ComponentDesign TDeps loc)
    (w w1 w2 : World) (insts : list loc) (e : Error) :
  list_items items = before ++ D :: after →
  array_map (fun item => create item deps) before w = (Ok insts, w1) →
  create D deps w1 = (Throw e, w2) →
  createListComposedInstance items deps w = (Throw e, w2).
Proof.
  intros Hitems Hbefore HD.
  unfold createListComposedInstance, instantiate. rewrite Hitems.
  unfold bind. by rewrite (array_map_throw _ _ _ _ _ _ _ _ _ Hbefore HD).
Qed.

Lemma createListComposedInstance_aborts_witness :
  createListComposedInstance list_AThrowY tt empty_world
  = (Throw (Thrown (VString "boom")),
     snd (create DesignA tt empty_world)).
Proof.
  apply (createListComposedInstance_aborts list_AThrowY tt
           [DesignA] [DesignY] DesignThrow empty_world
           (snd (create DesignA tt empty_world)) _ [0%nat]);
    reflexivity.
Defined.



(** The states [items.map( f )] goes through: element [i] is mapped in
    the state the elements before it left, the first one in the state
    of the call. *)
Lemma array_map_states {A B} (f : A -> M B) (l : list A) (w w' : World)
    (rs : list B) :
  array_map f l w = (Ok rs, w') →
  ∃ ws : list World,
    length ws = S (length l)
    ∧ ws !! 0%nat = Some w
    ∧ ws !! length l = Some w'
    ∧ ∀ i a, l !! i = Some a →
             ∃ b wi wi',
               ws !! i = Some wi ∧ ws !! S i = Some wi'
               ∧ f a wi = (Ok b, wi') ∧ rs !! i = Some b.
Proof.
  revert w w' rs. induction l as [|a0 l IH]; intros w w' rs; simpl.
  - unfold ret. intros [= <- <-]. exists [w].
    split; [done|]. split; [done|]. split; [done|].
    intros i a Hi. by rewrite lookup_nil in Hi.
  - unfold bind at 1. destruct (f a0 w) as [[b0|e] w1] eqn:Hf; [|done].
    unfold bind at 1. destruct (array_map f l w1) as [[bs|e] w2] eqn:Hl; [|done].
    unfold ret. intros [= <- <-].
    destruct (IH _ _ _ Hl) as (ws & Hlen & H0 & Hn & Hall).
    exists (w :: ws). split; [simpl; by rewrite Hlen|].
    split; [done|]. split; [done|].
    intros i a Hi. destruct i as [|i]; simpl in *.
    + injection Hi as <-. by exists b0, w, w1.
    + by apply Hall.
Qed.

(** X6: the facade holds one instance per design of the list, in list
    order.  Design [i] is run on the shared [deps] in the state the
    designs before it left (the first one in the state of the call),
    and the object it returns is instance [i]; the heap after the call
    is the one the last design left.  This does not depend on whether
    the plan came from the cache. *)
Theorem createListComposedInstance_instances {TDeps}
    (items : ComponentDesignList TDeps) (deps : TDeps) (w w' : World)
    (f : Facade) :
  createListComposedInstance items deps w = (Ok f, w') →
  length (instances f) = length (list_items items)
  ∧ ∃ ws : list World,
      length ws = S (length (list_items items))
      ∧ ws !! 0%nat = Some w
      ∧ (∃ wn, ws !! length (list_items items) = Some wn
               ∧ heap w' = heap wn ∧ next_loc w' = next_loc wn)
      ∧ ∀ i D,
          list_items items !! i = Some D →
          ∃ inst wi wi',
            ws !! i = Some wi ∧ ws !! S i = Some wi'
            ∧ create D deps wi = (Ok inst, wi')
            ∧ instances f !! i = Some inst.
Proof.
  unfold createListComposedInstance, instantiate, bind.
  destruct (array_map _ (list_items items) w) as [[insts|e] w1] eqn:Hmap; [|done].
  intros Hrun.
  assert (Hinsts : instances f = insts
                   ∧ heap w' = heap w1 ∧ next_loc w' = next_loc w1).
  { destruct (listComposedPropertyMapCache w !! list_id items);
      unfold ret in Hrun; by injection Hrun as <- <-. }
  destruct Hinsts as (-> & Hheap & Hnext). split.
  - by eapply array_map_length.
  - destruct (array_map_states _ _ _ _ _ Hmap) as (ws & Hlen & H0 & Hn & Hall).
    exists ws. split; [done|]. split; [done|]. split; [by exists w1|].
    intros i D Hi. by apply Hall.
Qed.

Lemma createListComposedInstance_instances_witness :
  length (instances facade_AY) = 2%nat.
Proof.
  apply (createListComposedInstance_instances list_AY tt empty_world world_AY).
  reflexivity.
Defined.

(** X7: the empty list composes to an object without properties: no
    key is reported, every key reads as [undefined], and an assignment
    does nothing and reports failure. *)
Theorem compose_empty_list {TDeps} (call : fid -> value -> list value -> M value)
    (items : ComponentDesignList TDeps) (deps : TDeps) (w : World) :
  list_items items = [] →
  listComposedPropertyMapCache w !! list_id items = None →
  ∃ f w',
    createListComposedInstance items deps w = (Ok f, w')
    ∧ facade_ownKeys f = []
    ∧ ∀ k v w0,
        facade_has f k = false
        ∧ facade_get call f k w0 = (Ok VUndefined, w0)
        ∧ facade_set call f k v w0 = (Ok false, w0).
Proof.
  intros Hitems Hc. unfold createListComposedInstance, instantiate.
  rewrite Hitems, Hc. simpl. do 2 eexists. split; [reflexivity|].
  split; [reflexivity|]. by intros k v w0.
Qed.

Lemma compose_empty_list_witness :
  ∃ f w',
    createListComposedInstance list_empty tt empty_world = (Ok f, w')
    ∧ facade_ownKeys f = []
    ∧ ∀ k v w0,
        facade_has f k = false
        ∧ facade_get sample_call f k w0 = (Ok VUndefined, w0)
        ∧ facade_set sample_call f k v w0 = (Ok false, w0).
Proof.
  apply (compose_empty_list sample_call list_empty tt empty_world); reflexivity.
Defined.

(** ** The keys of the plan *)

Section AssocKeys.
Context {K : Type} `{EqDecision K} {V : Type}.
Implicit Types (k : K) (v : V) (m : list (K * V)).

(** Writing a key keeps the order of the keys; a new key goes last. *)
Lemma assoc_set_keys k v m :
  assoc_keys (assoc_set k v m)
  = if decide (k ∈ assoc_keys m) then assoc_keys m else assoc_keys m ++ [k].
Proof.
  unfold assoc_keys. induction m as [|[k' v'] m IH].
  - by rewrite decide_False by apply not_elem_of_nil.
  - cbn [assoc_set]. destruct (decide (k = k')) as [->|Hne].
    + by rewrite decide_True by apply list_elem_of_here.
    + rewrite !fmap_cons, IH. cbn [fst].
      destruct (decide (k ∈ m.*1)) as [Hin|Hnin].
      * by rewrite decide_True by (by apply list_elem_of_further).
      * rewrite decide_False; [done|].
        rewrite elem_of_cons. intros [?|?]; done.
Qed.

Lemma assoc_set_NoDup k v m :
  NoDup (assoc_keys m) → NoDup (assoc_keys (assoc_set k v m)).
Proof.
  intros Hnd. rewrite assoc_set_keys. case_decide; [done|].
  apply NoDup_app. split; [done|]. split.
  - intros x Hx. rewrite list_elem_of_singleton. by intros ->.
  - apply NoDup_singleton.
Qed.

Lemma assoc_has_keys k m : assoc_has k m = true ↔ k ∈ assoc_keys m.
Proof.
  unfold assoc_has. destruct (assoc_get k m) eqn:Hk.
  - split; [|done]. intros _.
    destruct (decide (k ∈ assoc_keys m)) as [|Hnin]; [done|].
    apply assoc_get_None in Hnin. congruence.
  - apply assoc_get_None in Hk. split; [done|]. by intros ?.
Qed.
End AssocKeys.

Lemma add_own_keys_NoDup (i : nat) (inst : JsObject) (pm : PropertyMap) :
  NoDup (assoc_keys pm) → NoDup (assoc_keys (add_own_keys i inst pm)).
Proof.
  unfold add_own_keys. generalize (Reflect_ownKeys inst) as ks.
  intros ks. revert pm. induction ks as [|key ks IH]; intros pm Hnd; [done|].
  simpl. apply IH.
  destruct (getOwnPropertyDescriptor (own_props inst) key); [|done].
  by apply assoc_set_NoDup.
Qed.

Lemma add_proto_keys_NoDup (i : nat) (p : Proto) (pm : PropertyMap) :
  NoDup (assoc_keys pm) → NoDup (assoc_keys (add_proto_keys i p pm)).
Proof.
  unfold add_proto_keys. generalize (assoc_keys (proto_props p)) as ks.
  intros ks. revert pm. induction ks as [|key ks IH]; intros pm Hnd; [done|].
  simpl. apply IH.
  destruct (negb (assoc_has key pm)); [|done].
  destruct (getOwnPropertyDescriptor (proto_props p) key); [|done].
  by apply assoc_set_NoDup.
Qed.

Lemma add_instance_NoDup (i : nat) (inst : JsObject) (pm : PropertyMap) :
  NoDup (assoc_keys pm) → NoDup (assoc_keys (add_instance i inst pm)).
Proof.
  intros Hnd. unfold add_instance.
  assert (Hstart : NoDup (assoc_keys (add_own_keys i inst pm)))
    by (by apply add_own_keys_NoDup).
  revert Hstart. generalize (add_own_keys i inst pm) as pm0.
  induction (proto_chain inst) as [|p chain IH]; intros pm0 Hpm0; [done|].
  simpl. apply IH. by apply add_proto_keys_NoDup.
Qed.

Lemma build_from_NoDup (insts : list JsObject) (i : nat) (pm : PropertyMap) :
  NoDup (assoc_keys pm) → NoDup (assoc_keys (build_from i insts pm)).
Proof.
  revert i pm. induction insts as [|inst insts IH]; intros i pm Hnd; [done|].
  simpl. apply IH. by apply add_instance_NoDup.
Qed.

Lemma chain_entry_is_Some (i : nat) (k : PropertyKey) (chain : list Proto) :
  is_Some (chain_entry i k chain) ↔ is_Some (lookup_chain k chain).
Proof.
  induction chain as [|p chain IH]; simpl.
  - split; intros [? ?]; done.
  - destruct (getOwnPropertyDescriptor (proto_props p) k); [|done].
    split; intros _; by eexists.
Qed.

Lemma build_from_is_Some (insts : list JsObject) (i : nat) (pm : PropertyMap)
    (k : PropertyKey) :
  is_Some (assoc_get k (build_from i insts pm))
  ↔ is_Some (assoc_get k pm)
    ∨ ∃ inst, inst ∈ insts ∧ is_Some (find_property inst k).
Proof.
  revert i pm. induction insts as [|inst insts IH]; intros i pm; simpl.
  - split; [by left|]. intros [?|(inst & Hin & _)]; [done|].
    by apply elem_of_nil in Hin.
  - rewrite IH, add_instance_lookup. unfold find_property at 2.
    split.
    + intros [Hhere|(x & Hin & Hx)].
      * destruct (getOwnPropertyDescriptor (own_props inst) k) as [d|] eqn:Hown.
        -- right. exists inst. split; [apply list_elem_of_here|].
           unfold find_property. rewrite Hown. by eexists.
        -- destruct (assoc_get k pm) as [e|]; [left; by eexists|].
           right. exists inst. split; [apply list_elem_of_here|].
           unfold find_property. rewrite Hown. by apply chain_entry_is_Some in Hhere.
      * right. exists x. split; [by apply list_elem_of_further | done].
    + intros [Hpm|(x & Hin & Hx)].
      * left. destruct (getOwnPropertyDescriptor (own_props inst) k); [by eexists|].
        destruct Hpm as [e ->]. by eexists.
      * apply elem_of_cons in Hin as [->|Hin].
        -- left. unfold find_property in Hx.
           destruct (getOwnPropertyDescriptor (own_props inst) k); [by eexists|].
           destruct (assoc_get k pm); [by eexists|].
           by apply chain_entry_is_Some.
        -- right. by exists x.
Qed.

(** X8: the facade of a first [create] exposes the union of what the
    instances define: a key is reported by [has] exactly when some
    instance of the list has it, as an own or as an inherited property,
    when the plan is built. *)
Theorem fresh_facade_has_union {TDeps}
    (items : ComponentDesignList TDeps) (deps : TDeps) (w w1 : World)
    (f : Facade) (k : PropertyKey) :
  listComposedPropertyMapCache w !! list_id items = None →
  createListComposedInstance items deps w = (Ok f, w1) →
  facade_has f k = true
  ↔ ∃ i inst, instances f !! i = Some inst
              ∧ is_Some (find_property (heap_get w1 inst) k).
Proof.
  intros Hc Hrun.
  destruct (createListComposedInstance_fresh _ _ _ _ _ Hc Hrun)
    as (w' & _ & Hplan & Hw1 & _).
  assert (Hheap : ∀ l, heap_get w1 l = heap_get w' l) by (by rewrite Hw1).
  unfold facade_has, assoc_has. rewrite Hplan. unfold build_plan.
  assert (Hsome : ∀ o : option PlanEntry,
            match o with Some _ => true | None => false end = true ↔ is_Some o).
  { intros [e|]; split; done. }
  rewrite Hsome, build_from_is_Some. simpl. split.
  - intros [[? ?]|(o & Hin & Ho)]; [done|].
    apply list_elem_of_fmap in Hin as (inst & -> & Hin).
    apply list_elem_of_lookup in Hin as [i Hi].
    exists i, inst. by rewrite Hheap.
  - intros (i & inst & Hi & Hk). right. exists (heap_get w' inst). split.
    + apply list_elem_of_fmap. exists inst. split; [done|].
      by eapply list_elem_of_lookup_2.
    + by rewrite <- Hheap.
Qed.

Lemma fresh_facade_has_union_witness :
  facade_has facade_AY (KString "y") = true
  ↔ ∃ i inst, instances facade_AY !! i = Some inst
              ∧ is_Some (find_property (heap_get world_AY inst) (KString "y")).
Proof.
  apply (fresh_facade_has_union list_AY tt empty_world world_AY facade_AY);
    reflexivity.
Defined.

(** ** Who owns a key *)

(** X10: among own definitions the last one wins: the plan gives a key
    to the last instance that has it as an own property, with that
    instance's descriptor, whatever the earlier instances define and
    whatever the later ones inherit. *)
Theorem plan_owner_last_own (before after : list JsObject) (inst : JsObject)
    (k : PropertyKey) (d : PropertyDescriptor) :
  getOwnPropertyDescriptor (own_props inst) k = Some d →
  Forall (fun inst' => getOwnPropertyDescriptor (own_props inst') k = None) after →
  assoc_get k (build_plan (before ++ inst :: after))
  = Some (mkEntry (length before) d None).
Proof. apply build_plan_last_own. Qed.

Lemma plan_owner_last_own_witness :
  assoc_get (KString "value")
    (build_plan ([mkObject [data "value" (VString "A")] []]
                 ++ mkObject [data "value" (VString "Z")] []
                 :: [mkObject [] [B_prototype]]))
  = Some (mkEntry 1%nat (DataDesc (VString "Z") true) None).
Proof.
  apply (plan_owner_last_own [mkObject [data "value" (VString "A")] []]
           [mkObject [] [B_prototype]]
           (mkObject [data "value" (VString "Z")] [])
           (KString "value") (DataDesc (VString "Z") true)).
  - reflexivity.
  - repeat constructor.
Defined.

(** X11: among inherited definitions the first one wins: a key that no
    instance has as an own property goes to the first instance that
    inherits it, with the descriptor of the nearest prototype defining
    it, and stays there whatever the later instances inherit. *)
Theorem plan_owner_first_inherited (before after : list JsObject) (inst : JsObject)
    (k : PropertyKey) (e : PlanEntry) :
  Forall (fun b => find_property b k = None) before →
  getOwnPropertyDescriptor (own_props inst) k = None →
  chain_entry (length before) k (proto_chain inst) = Some e →
  Forall (fun a => getOwnPropertyDescriptor (own_props a) k = None) after →
  assoc_get k (build_plan (before ++ inst :: after)) = Some e.
Proof. apply build_plan_first_inherited. Qed.

Lemma plan_owner_first_inherited_witness :
  assoc_get (KString "value")
    (build_plan ([mkObject [data "y" (VNumber 2)] []]
                 ++ mkObject [] [B_prototype]
                 :: [mkObject [] [C_prototype]]))
  = Some (mkEntry 1%nat (DataDesc (VFunction 7%nat) true) (Some B_prototype)).
Proof.
  apply (plan_owner_first_inherited [mkObject [data "y" (VNumber 2)] []]
           [mkObject [] [C_prototype]] (mkObject [] [B_prototype])).
  - repeat constructor.
  - reflexivity.
  - reflexivity.
  - repeat constructor.
Defined.

(** ** Assignments through the facade *)



Lemma bind_ret_true_not_false {A} (c : M A) (w w' : World) :
  (_ <- c ;; ret true) w ≠ (Ok false, w').
Proof.
  unfold bind, ret. by destruct (c w) as [[a|e] w1].
Qed.

(** X13: an assignment through the facade reports failure only when
    the facade has no instance at all, and then nothing has changed;
    with an instance it reports success or raises. *)
Theorem facade_set_false_only_empty (call : fid -> value -> list value -> M value)
    (f : Facade) (k : PropertyKey) (v : value) (w w' : World) :
  facade_set call f k v w = (Ok false, w') →
  instances f = [] ∧ w' = w.
Proof.
  assert (Hlast : set_on_last call f k v w = (Ok false, w') →
                  instances f = [] ∧ w' = w).
  { unfold set_on_last. destruct (instances f) as [|i0 insts]; simpl.
    - unfold ret. by intros [= <-].
    - intros H. by apply bind_ret_true_not_false in H. }
  unfold facade_set. destruct (assoc_get k (propertyMap f)) as [e|]; [|done].
  destruct (bool_decide (typeof (desc_set (desc e)) = TFunction)).
  - intros H. by apply bind_ret_true_not_false in H.
  - destruct (desc_writable (desc e)); [|done].
    intros H. by apply bind_ret_true_not_false in H.
Qed.

Lemma facade_set_false_only_empty_witness :
  instances (mkFacade [] []) = [] ∧ empty_world = empty_world.
Proof.
  apply (facade_set_false_only_empty sample_call (mkFacade [] [])
           (KString "x") (VNumber 1) empty_world empty_world).
  reflexivity.
Defined.

(** ** The cache of plans *)

(** X14: a second [create] on the same list, in the state a successful
    first [create] left, instantiates every design again and wraps the
    new instances with the plan of the first call: the keys, owners and
    descriptors are those recorded then, and the engine writes nothing
    more into the cache. *)
Theorem plan_reused_on_second_create {TDeps}
    (items : ComponentDesignList TDeps) (deps : TDeps) (w w1 : World)
    (f : Facade) :
  listComposedPropertyMapCache w !! list_id items = None →
  createListComposedInstance items deps w = (Ok f, w1) →
  createListComposedInstance items deps w1
  = (insts <- instantiate items deps ;; ret (mkFacade insts (propertyMap f))) w1
  ∧ ∀ f2 w2,
      createListComposedInstance items deps w1 = (Ok f2, w2) →
      propertyMap f2 = propertyMap f
      ∧ instantiate items deps w1 = (Ok (instances f2), w2).
Proof.
  intros Hc Hrun.
  pose proof (createListComposedInstance_again items deps w f w1 Hc Hrun) as Hagain.
  split; [done|].
  intros f2 w2. rewrite Hagain. unfold bind, ret.
  destruct (instantiate items deps w1) as [[insts|e] w3]; [|done].
  by intros [= <- <-].
Qed.

Lemma plan_reused_on_second_create_witness :
  createListComposedInstance list_AY tt world_AY
  = (insts <- instantiate list_AY tt ;;
     ret (mkFacade insts (propertyMap facade_AY))) world_AY.
Proof.
  apply (plan_reused_on_second_create list_AY tt empty_world world_AY facade_AY);
    reflexivity.
Defined.

(** * The state store *)

Section AssocDelete.
Context {K : Type} `{EqDecision K} {V : Type}.
Implicit Types (k : K) (v : V) (m : list (K * V)).

Lemma assoc_get_delete_eq k m : assoc_get k (assoc_delete k m) = None.
Proof.
  unfold assoc_delete. induction m as [|[k' v'] m IH]; simpl; [done|].
  destruct (decide (k' = k)) as [->|Hne].
  - by rewrite bool_decide_eq_true_2.
  - rewrite bool_decide_eq_false_2 by done. simpl.
    by rewrite decide_False by congruence.
Qed.

Lemma assoc_get_delete_ne k k' m :
  k ≠ k' → assoc_get k (assoc_delete k' m) = assoc_get k m.
Proof.
  intros Hne. unfold assoc_delete. induction m as [|[k0 v0] m IH]; simpl; [done|].
  destruct (decide (k0 = k')) as [->|Hne0].
  - rewrite bool_decide_eq_true_2 by done. simpl.
    by rewrite decide_False by done.
  - rewrite bool_decide_eq_false_2 by done. simpl.
    by destruct (decide (k = k0)).
Qed.

Lemma assoc_delete_keys k m :
  assoc_keys (assoc_delete k m)
  = List.filter (fun k' => negb (bool_decide (k' = k))) (assoc_keys m).
Proof.
  unfold assoc_delete, assoc_keys. induction m as [|[k' v'] m IH]; simpl; [done|].
  destruct (negb (bool_decide (k' = k))); simpl; [f_equal|]; exact IH.
Qed.
End AssocDelete.

Lemma store_write_get_eq (key : string) (v : value) (m : State.StateData) :
  default VUndefined (assoc_get key (State.store_write key v m)) = v.
Proof.
  unfold State.store_write. case_bool_decide as Hv.
  - by rewrite assoc_get_delete_eq, Hv.
  - by rewrite assoc_get_set_eq.
Qed.

Lemma store_write_get_ne (key key' : string) (v : value) (m : State.StateData) :
  key' ≠ key →
  assoc_get key' (State.store_write key v m) = assoc_get key' m.
Proof.
  intros Hne. unfold State.store_write. case_bool_decide.
  - by apply assoc_get_delete_ne.
  - by apply assoc_get_set_ne.
Qed.

(** X15: [set] then [get] returns the value written, for every value:
    [undefined] deletes the key, which then reads as [undefined] and is
    gone from the snapshot; any other value is stored under the key;
    the other keys are untouched. *)
Theorem state_set_get (s : State.State) (key : string) (v : value) :
  State.get (State.set key v s) key = v
  ∧ (∀ key', key' ≠ key →
             State.get (State.set key v s) key' = State.get s key')
  ∧ (v = VUndefined → key ∉ assoc_keys (State.toObject (State.set key v s)))
  ∧ (v ≠ VUndefined →
     assoc_get key (State.toObject (State.set key v s)) = Some v).
Proof.
  unfold State.get, State.set, State.toObject. simpl. split; [|split; [|split]].
  - apply store_write_get_eq.
  - intros key' Hne. by rewrite store_write_get_ne.
  - intros ->. unfold State.store_write. rewrite bool_decide_eq_true_2 by done.
    apply assoc_get_None, assoc_get_delete_eq.
  - intros Hv. unfold State.store_write. rewrite bool_decide_eq_false_2 by done.
    apply assoc_get_set_eq.
Qed.

Lemma assoc_set_id {K : Type} `{EqDecision K} {V : Type}
    (k : K) (v : V) (m : list (K * V)) :
  assoc_get k m = Some v → assoc_set k v m = m.
Proof.
  induction m as [|[k' v'] m IH]; simpl; [done|].
  destruct (decide (k = k')) as [->|Hne].
  - by intros [= ->].
  - intros Hk. by rewrite IH.
Qed.

Lemma assoc_delete_absent {K : Type} `{EqDecision K} {V : Type}
    (k : K) (m : list (K * V)) :
  assoc_get k m = None → assoc_delete k m = m.
Proof.
  unfold assoc_delete. induction m as [|[k' v'] m IH]; simpl; [done|].
  destruct (decide (k = k')) as [->|Hne]; [done|].
  intros Hk. rewrite bool_decide_eq_false_2 by congruence. simpl.
  by rewrite IH.
Qed.

(** X16: [set] notifies without looking for a change: writing back the
    value a key reads as leaves the store as it is, and still every
    listener is called once, in subscription order, with the snapshot.
    (A key that holds [undefined] from the initial data is the
    exception: writing [undefined] deletes it.) *)
Theorem state_set_same_value_notifies (s : State.State) (key : string) :
  assoc_get key (State.store s) ≠ Some VUndefined →
  State.store (State.set key (State.get s key) s) = State.store s
  ∧ State.listeners (State.set key (State.get s key) s) = State.listeners s
  ∧ State.calls (State.set key (State.get s key) s)
    = State.calls s
      ++ map (fun l => State.call_listener l (State.toObject s)) (State.listeners s).
Proof.
  intros Hdef.
  assert (Hstore : State.store_write key (State.get s key) (State.store s)
                   = State.store s).
  { unfold State.store_write, State.get.
    destruct (assoc_get key (State.store s)) as [v|] eqn:Hk; cbn [default id].
    - case_bool_decide as Hv; [by subst v|]. by apply assoc_set_id.
    - case_bool_decide as Hv; [|done]. by apply assoc_delete_absent. }
  unfold State.set, State.notify, State.toObject. simpl.
  by rewrite Hstore.
Qed.

Lemma state_set_same_value_notifies_witness :
  let s := State.subscribe (State.UserListener 1%nat)
             (State.createState [("count", VNumber 0)]) in
  State.store (State.set "count" (State.get s "count") s) = State.store s
  ∧ State.listeners (State.set "count" (State.get s "count") s) = State.listeners s
  ∧ State.calls (State.set "count" (State.get s "count") s)
    = State.calls s
      ++ map (fun l => State.call_listener l (State.toObject s)) (State.listeners s).
Proof.
  apply state_set_same_value_notifies. discriminate.
Defined.

Lemma update_fold_get (changes m : State.StateData) (ks : list string) (k : string) :
  default VUndefined
    (assoc_get k
       (foldl (fun m key =>
                 State.store_write key
                   (default VUndefined (assoc_get key changes)) m) m ks))
  = if decide (k ∈ ks) then default VUndefined (assoc_get k changes)
    else default VUndefined (assoc_get k m).
Proof.
  revert m. induction ks as [|key ks IH]; intros m.
  - by rewrite decide_False by apply not_elem_of_nil.
  - cbn [foldl]. rewrite IH. destruct (decide (k ∈ ks)) as [Hin|Hnin].
    + by rewrite decide_True by (by apply list_elem_of_further).
    + destruct (decide (k = key)) as [->|Hne].
      * rewrite decide_True by apply list_elem_of_here.
        apply store_write_get_eq.
      * rewrite decide_False by (rewrite elem_of_cons; intros [?|?]; done).
        by rewrite store_write_get_ne.
Qed.

(** X17: [update] applies every key of the changes and then notifies
    once: afterwards a key of the changes reads as the changes have it
    (so as [undefined] when they carry [undefined], which deletes it),
    any other key reads as before, and each listener has been called
    once, with the final state; a function is first applied to the
    current snapshot. *)
Theorem state_update (s : State.State) (updater : State.Updater) :
  let changes :=
    match updater with
    | State.UpdaterFunction f => f (State.toObject s)
    | State.UpdaterObject changes => changes
    end in
  (∀ k, State.get (State.update updater s) k
        = match assoc_get k changes with
          | Some v => v
          | None => State.get s k
          end)
  ∧ State.calls (State.update updater s)
    = State.calls s
      ++ map (fun l => State.call_listener l (State.toObject (State.update updater s)))
             (State.listeners s).
Proof.
  intros changes. split; [|reflexivity].
  intros k. unfold State.get, State.update. simpl.
  fold changes. rewrite update_fold_get.
  destruct (assoc_get k changes) as [v|] eqn:Hk.
  - rewrite decide_True; [done|].
    destruct (decide (k ∈ assoc_keys changes)) as [|Hnin]; [done|].
    apply assoc_get_None in Hnin. congruence.
  - rewrite decide_False; [done|]. by apply assoc_get_None.
Qed.

Section OrderedSetFacts.
Context {A : Type} `{EqDecision A}.
Implicit Types (x y : A) (l : list A).

Lemma set_add_idem x l : set_add x (set_add x l) = set_add x l.
Proof.
  assert (Hin : x ∈ set_add x l).
  { unfold set_add. case_decide; [done|].
    apply elem_of_app. right. apply list_elem_of_here. }
  unfold set_add at 1. by rewrite decide_True.
Qed.

Lemma elem_of_set_delete x y l : y ∈ set_delete x l ↔ y ∈ l ∧ y ≠ x.
Proof.
  unfold set_delete. rewrite !list_elem_of_In, List.filter_In.
  rewrite negb_true_iff, bool_decide_eq_false. tauto.
Qed.

Lemma set_delete_absent x l : x ∉ l → set_delete x l = l.
Proof.
  unfold set_delete. induction l as [|y l IH]; simpl; [done|].
  rewrite not_elem_of_cons. intros [Hne Hnin].
  rewrite bool_decide_eq_false_2 by congruence. simpl. by rewrite IH.
Qed.

Lemma set_delete_add x l : x ∉ l → set_delete x (set_add x l) = l.
Proof.
  intros Hnin. unfold set_add. rewrite decide_False by done.
  unfold set_delete. rewrite List.filter_app. simpl.
  rewrite bool_decide_eq_true_2 by done. simpl. rewrite app_nil_r.
  by apply set_delete_absent.
Qed.

Lemma set_add_NoDup x l : NoDup l → NoDup (set_add x l).
Proof.
  intros Hnd. unfold set_add. case_decide; [done|].
  apply NoDup_app. split; [done|]. split.
  - intros y Hy. rewrite list_elem_of_singleton. by intros ->.
  - apply NoDup_singleton.
Qed.
End OrderedSetFacts.

(** X18: subscribing calls the listener at once with the current
    snapshot; subscribing the same function again registers nothing
    more; unsubscribing removes it, so the later notifications leave it
    out, and undoes a subscription of a function that was not
    subscribed before. *)
Theorem state_subscribe (s : State.State) (l : State.Listener) :
  State.calls (State.subscribe l s)
  = State.calls s ++ [State.call_listener l (State.toObject s)]
  ∧ State.listeners (State.subscribe l (State.subscribe l s))
    = State.listeners (State.subscribe l s)
  ∧ (l ∉ State.listeners (State.unsubscribe l (State.subscribe l s)))
  ∧ (∀ key v,
       State.calls (State.set key v (State.unsubscribe l s))
       = State.calls s
         ++ map (fun l' => State.call_listener l'
                             (State.store_write key v (State.store s)))
                (set_delete l (State.listeners s)))
  ∧ (l ∉ State.listeners s →
     State.listeners (State.unsubscribe l (State.subscribe l s))
     = State.listeners s).
Proof.
  split; [reflexivity|]. split; [apply set_add_idem|]. split; [|split].
  - unfold State.unsubscribe. simpl. rewrite elem_of_set_delete. by intros [_ ?].
  - reflexivity.
  - intros Hnin. unfold State.unsubscribe, State.subscribe. simpl.
    by apply set_delete_add.
Qed.

Lemma state_subscribe_witness :
  State.listeners
    (State.unsubscribe (State.UserListener 1%nat)
       (State.subscribe (State.UserListener 1%nat) (State.createState [])))
  = State.listeners (State.createState []).
Proof.
  apply (state_subscribe (State.createState []) (State.UserListener 1%nat)).
  apply not_elem_of_nil.
Defined.

(** X19: a view wraps the listener anew at every [subscribe]: the same
    function subscribed twice through a view is registered twice, after
    the listeners already there, and every later [set] calls it twice;
    unsubscribing one registration leaves the other. *)
Theorem state_view_subscribe_twice (s : State.State) (v : State.View) (id : nat) :
  wrappers_known s →
  let '(w1, s1) := State.view_subscribe v id s in
  let '(w2, s2) := State.view_subscribe v id s1 in
  w1 ≠ w2
  ∧ State.listeners s2 = State.listeners s ++ [w1; w2]
  ∧ (∀ key x,
       State.calls (State.set key x s2)
       = State.calls s2
         ++ map (fun l => State.call_listener l
                            (State.store_write key x (State.store s)))
                (State.listeners s ++ [w1; w2]))
  ∧ w2 ∈ State.listeners (State.unsubscribe w1 s2).
Proof.
  intros Hknown. unfold State.view_subscribe, State.subscribe. simpl.
  set (n := State.next_wrapper s).
  assert (H1 : State.Wrapper n v id ∉ State.listeners s).
  { intros Hin. apply Hknown in Hin. unfold n in Hin. lia. }
  assert (Hadd1 : set_add (State.Wrapper n v id) (State.listeners s)
                  = State.listeners s ++ [State.Wrapper n v id]).
  { unfold set_add. by rewrite decide_False. }
  assert (H2 : State.Wrapper (S n) v id
               ∉ State.listeners s ++ [State.Wrapper n v id]).
  { rewrite elem_of_app, list_elem_of_singleton. intros [Hin|Heq].
    - apply Hknown in Hin. unfold n in Hin. lia.
    - injection Heq. lia. }
  assert (Hadd2 : set_add (State.Wrapper (S n) v id)
                    (State.listeners s ++ [State.Wrapper n v id])
                  = State.listeners s ++ [State.Wrapper n v id; State.Wrapper (S n) v id]).
  { unfold set_add. rewrite decide_False by done. by rewrite <- app_assoc. }
  rewrite Hadd1, Hadd2. split; [|split; [|split]].
  - intros Heq. injection Heq. lia.
  - reflexivity.
  - intros key x. unfold State.set, State.notify. simpl.
    by rewrite ?Hadd1, ?Hadd2.
  - unfold State.unsubscribe. simpl. rewrite ?Hadd1, ?Hadd2.
    apply elem_of_set_delete. split.
    + apply elem_of_app. right. apply list_elem_of_further, list_elem_of_here.
    + intros Heq. injection Heq. lia.
Qed.

Lemma state_view_subscribe_twice_witness :
  State.listeners
    (snd (State.view_subscribe (State.pick ["a"]) 1%nat
            (snd (State.view_subscribe (State.pick ["a"]) 1%nat
                    (State.createState [("a", VNumber 1)])))))
  = [State.Wrapper 0%nat (State.Pick ["a"]) 1%nat;
     State.Wrapper 1%nat (State.Pick ["a"]) 1%nat].
Proof.
  pose proof (state_view_subscribe_twice (State.createState [("a", VNumber 1)])
                (State.pick ["a"]) 1%nat) as H.
  simpl in H. apply H.
  intros wid v id Hin. by apply elem_of_nil in Hin.
Defined.

Lemma filter_filter_andb {A} (p q : A -> bool) (l : list A) :
  List.filter q (List.filter p l) = List.filter (fun x => p x && q x) l.
Proof.
  induction l as [|x l IH]; simpl; [done|].
  destruct (p x); simpl; [|done]. destruct (q x); by rewrite IH.
Qed.

Lemma filter_ext_bool {A} (p q : A -> bool) (l : list A) :
  (∀ x, p x = q x) → List.filter p l = List.filter q l.
Proof.
  intros Hpq. induction l as [|x l IH]; simpl; [done|].
  by rewrite Hpq, IH.
Qed.

Lemma assoc_get_list_filter (m : State.StateData) (p : string -> bool)
    (k : string) :
  assoc_get k (List.filter (fun kv => p (fst kv)) m)
  = if p k then assoc_get k m else None.
Proof.
  induction m as [|[k' v'] m IH]; simpl.
  - by destruct (p k).
  - destruct (p k') eqn:Hk'; simpl.
    + destruct (decide (k = k')) as [->|Hne]; [by rewrite Hk'|done].
    + destruct (decide (k = k')) as [->|Hne]; [by rewrite IH, Hk'|done].
Qed.

Lemma assoc_get_filter (m : State.StateData) (predicate : string -> bool)
    (k : string) :
  assoc_get k (State.filter m predicate)
  = if predicate k && negb (String.eqb k "__proto__") then assoc_get k m else None.
Proof.
  exact (assoc_get_list_filter m
           (fun k => predicate k && negb (String.eqb k "__proto__")) k).
Qed.

(** On a snapshot without the key [__proto__], [filter] keeps exactly
    the accepted keys. *)
Lemma assoc_get_filter_plain (m : State.StateData) (predicate : string -> bool)
    (k : string) :
  "__proto__" ∉ assoc_keys m →
  assoc_get k (State.filter m predicate)
  = if predicate k then assoc_get k m else None.
Proof.
  intros Hproto. rewrite assoc_get_filter.
  destruct (predicate k); [|done]. simpl.
  destruct (String.eqb k "__proto__") eqn:Hk; [|done]. simpl.
  apply String.eqb_eq in Hk as ->. symmetry. by apply assoc_get_None.
Qed.

(** X20: [omit] on a view narrows it: the snapshot and the entries of
    [view.omit( ...omitted )] are those of the view without the omitted
    keys, for picked and for omitted views alike. *)
Theorem state_view_omit_narrows (v : State.View) (omitted : list string)
    (s : State.State) :
  State.view_toObject (State.view_omit v omitted) s
  = State.filter (State.view_toObject v s)
                 (fun k => negb (bool_decide (k ∈ omitted)))
  ∧ State.view_entries (State.view_omit v omitted) s
    = List.filter (fun kv => negb (bool_decide (fst kv ∈ omitted)))
                  (State.view_entries v s).
Proof.
  assert (Hpred : ∀ k,
            State.view_predicate (State.view_omit v omitted) k
            = State.view_predicate v k && negb (bool_decide (k ∈ omitted))).
  { intros k. destruct v as [keys|keys]; simpl.
    - apply eq_true_iff_eq. rewrite andb_true_iff, negb_true_iff.
      rewrite !bool_decide_eq_true, bool_decide_eq_false.
      rewrite list_elem_of_In, List.filter_In, <- list_elem_of_In.
      by rewrite negb_true_iff, bool_decide_eq_false.
    - apply eq_true_iff_eq. rewrite andb_true_iff, !negb_true_iff.
      rewrite !bool_decide_eq_false, elem_of_app. tauto. }
  unfold State.view_toObject, State.view_entries, State.filter, State.toObject.
  rewrite !filter_filter_andb.
  split; apply filter_ext_bool; intros [k x]; simpl; rewrite Hpred.
  - by destruct (State.view_predicate v k),
         (bool_decide (k ∈ omitted)), (String.eqb k "__proto__").
  - done.
Qed.

(** X21: what a view does not restrict.  Its [get] reads the whole
    state, also for keys outside the view; and on a state that has no
    key [__proto__] its snapshot shows a key exactly when the view
    accepts it, and [pick] on a view selects from the whole state
    again, so it can show keys the view had left out. *)
Theorem state_view_scope (v : State.View) (s : State.State) :
  (∀ k, State.view_get v s k = State.get s k)
  ∧ ("__proto__" ∉ assoc_keys (State.store s) →
     ∀ k, assoc_get k (State.view_toObject v s)
          = if State.view_predicate v k then assoc_get k (State.store s) else None)
  ∧ ("__proto__" ∉ assoc_keys (State.store s) →
     ∀ picked k,
       k ∈ picked →
       assoc_get k (State.view_toObject (State.view_pick v picked) s)
       = assoc_get k (State.store s)).
Proof.
  split; [done|]. split.
  - intros Hproto k. by apply assoc_get_filter_plain.
  - intros Hproto picked k Hk. unfold State.view_toObject.
    rewrite assoc_get_filter_plain by done.
    simpl. by rewrite bool_decide_eq_true_2.
Qed.

Lemma state_view_scope_witness :
  assoc_get "secret"
    (State.view_toObject (State.view_pick (State.omit ["secret"]) ["secret"])
       (State.createState [("secret", VNumber 7)]))
  = assoc_get "secret" (State.store (State.createState [("secret", VNumber 7)])).
Proof.
  apply (state_view_scope (State.omit ["secret"])
           (State.createState [("secret", VNumber 7)])).
  - unfold assoc_keys. simpl. rewrite list_elem_of_singleton. discriminate.
  - apply list_elem_of_here.
Defined.

Lemma new_Map_fold (acc entries : State.StateData) :
  NoDup (assoc_keys (acc ++ entries)) →
  foldl (fun m kv => assoc_set (fst kv) (snd kv) m) acc entries = acc ++ entries.
Proof.
  revert acc. induction entries as [|[k x] entries IH]; intros acc Hnd; simpl.
  - by rewrite app_nil_r.
  - assert (Hfresh : k ∉ assoc_keys acc).
    { unfold assoc_keys in *. rewrite fmap_app in Hnd. simpl in Hnd.
      apply NoDup_app in Hnd as (_ & Hdisj & _).
      intros Hin. apply (Hdisj _ Hin). apply list_elem_of_here. }
    rewrite assoc_set_fresh by done.
    rewrite IH; by rewrite <- app_assoc.
Qed.

(** X22: a new state holds the initial data: its snapshot is the
    initial object, every key reads as given, nothing is subscribed and
    nothing has been called. *)
Theorem createState_initial (initial : State.StateData) :
  NoDup (assoc_keys initial) →
  State.toObject (State.createState initial) = initial
  ∧ (∀ k, State.get (State.createState initial) k
          = default VUndefined (assoc_get k initial))
  ∧ State.listeners (State.createState initial) = []
  ∧ State.calls (State.createState initial) = [].
Proof.
  intros Hnd.
  assert (Hmap : State.new_Map initial = initial)
    by (unfold State.new_Map; by rewrite (new_Map_fold [] initial)).
  unfold State.toObject, State.get, State.createState. simpl.
  by rewrite Hmap.
Qed.

Lemma createState_initial_witness :
  State.toObject (State.createState [("count", VNumber 0); ("name", VString "Alice")])
  = [("count", VNumber 0); ("name", VString "Alice")].
Proof.
  apply (createState_initial [("count", VNumber 0); ("name", VString "Alice")]).
  unfold assoc_keys. simpl. apply NoDup_cons. split.
  - rewrite list_elem_of_singleton. discriminate.
  - apply NoDup_singleton.
Defined.

(** * The emitter *)

Section AssocMore.
Context {K : Type} `{EqDecision K} {V : Type}.
Implicit Types (k : K) (v : V) (m : list (K * V)).

Lemma assoc_set_set k v v' m :
  assoc_set k v (assoc_set k v' m) = assoc_set k v m.
Proof.
  induction m as [|[k0 v0] m IH]; simpl.
  - by rewrite decide_True.
  - destruct (decide (k = k0)) as [->|Hne]; simpl.
    + by rewrite decide_True.
    + rewrite decide_False by done. by rewrite IH.
Qed.

Lemma assoc_delete_set_fresh k v m :
  assoc_get k m = None → assoc_delete k (assoc_set k v m) = m.
Proof.
  intros Hk. rewrite assoc_set_fresh by (by apply assoc_get_None).
  unfold assoc_delete. rewrite List.filter_app. simpl.
  rewrite bool_decide_eq_true_2 by done. simpl. rewrite app_nil_r.
  by apply assoc_delete_absent.
Qed.
End AssocMore.

Lemma set_delete_middle {A} `{EqDecision A} (x : A) (l1 l2 : list A) :
  NoDup (l1 ++ x :: l2) → set_delete x (l1 ++ x :: l2) = l1 ++ l2.
Proof.
  intros Hnd. apply NoDup_app in Hnd as (_ & Hdisj & Hnd2).
  apply NoDup_cons in Hnd2 as [Hx2 _].
  unfold set_delete. rewrite List.filter_app. simpl.
  rewrite bool_decide_eq_true_2 by done. simpl.
  fold (set_delete x l1). fold (set_delete x l2).
  rewrite !set_delete_absent; [done|done|].
  intros Hin. apply (Hdisj _ Hin). apply list_elem_of_here.
Qed.

Lemma set_delete_NoDup {A} `{EqDecision A} (x : A) (l : list A) :
  NoDup l → NoDup (set_delete x l).
Proof.
  intros Hnd. unfold set_delete. induction Hnd as [|y l Hy Hnd IH]; simpl.
  - apply NoDup_nil_2.
  - destruct (negb (bool_decide (y = x))); [|done].
    apply NoDup_cons. split; [|done].
    intros Hin. apply Hy.
    apply list_elem_of_In, List.filter_In in Hin as [Hin _].
    by apply list_elem_of_In.
Qed.

(** The loop of [emit] over the rest [todo] of a topic, [kept] being
    the user callbacks already run. *)
Lemma emit_loop (event : string) (args : list value)
    (todo kept : list Emitter.Callback) (e : Emitter.Emitter) :
  NoDup (kept ++ todo) →
  assoc_get event (Emitter.topics e)
  = (if decide (kept ++ todo = []) then None else Some (kept ++ todo)) →
  let e' := foldl (fun e c => Emitter.run_callback event args c e) e todo in
  assoc_get event (Emitter.topics e')
  = (if decide (kept ++ List.filter Emitter.is_user todo = [])
     then None else Some (kept ++ List.filter Emitter.is_user todo))
  ∧ (∀ event', event' ≠ event →
               assoc_get event' (Emitter.topics e')
               = assoc_get event' (Emitter.topics e))
  ∧ Emitter.calls e'
    = Emitter.calls e
      ++ map (fun c => Emitter.CallbackCall (Emitter.target c) args) todo
  ∧ Emitter.subscriptions e' = Emitter.subscriptions e
  ∧ Emitter.next_wrapper e' = Emitter.next_wrapper e.
Proof.
  revert kept e. induction todo as [|c todo IH]; intros kept e Hnd Hcur.
  - simpl. rewrite !app_nil_r in *. by repeat split.
  - cbn [foldl]. destruct c as [id|wid id].
    + (* a user callback stays *)
      specialize (IH (kept ++ [Emitter.UserCallback id])
                    (Emitter.run_callback event args (Emitter.UserCallback id) e)).
      rewrite <- !app_assoc in IH. simpl in IH.
      destruct (IH Hnd Hcur) as (Ht & Hother & Hcalls & Hsubs & Hnext).
      cbv zeta. repeat split; try done.
      etrans; [exact Hcalls|]. simpl. by rewrite <- app_assoc.
    + (* a wrapper runs and takes itself off *)
      set (w := Emitter.OnceWrapper wid id) in *.
      assert (Hne : kept ++ w :: todo ≠ []) by (by destruct kept).
      rewrite decide_False in Hcur by done.
      assert (Hdel : set_delete w (kept ++ w :: todo) = kept ++ todo)
        by (by apply set_delete_middle).
      assert (Hnd' : NoDup (kept ++ todo)).
      { rewrite <- Hdel. by apply set_delete_NoDup. }
      set (e1 := Emitter.run_callback event args w e).
      assert (He1 : assoc_get event (Emitter.topics e1)
                    = (if decide (kept ++ todo = []) then None else Some (kept ++ todo))
                    ∧ (∀ event', event' ≠ event →
                         assoc_get event' (Emitter.topics e1)
                         = assoc_get event' (Emitter.topics e))
                    ∧ Emitter.calls e1
                      = Emitter.calls e ++ [Emitter.CallbackCall id args]
                    ∧ Emitter.subscriptions e1 = Emitter.subscriptions e
                    ∧ Emitter.next_wrapper e1 = Emitter.next_wrapper e).
      { unfold e1, Emitter.run_callback, Emitter.off, w. simpl.
        rewrite Hcur. fold w. rewrite Hdel.
        destruct (kept ++ todo) as [|c0 rest] eqn:Hrest; simpl.
        - repeat split; try done.
          + apply assoc_get_delete_eq.
          + intros event' Hne'. by apply assoc_get_delete_ne.
        - repeat split; try done.
          + apply assoc_get_set_eq.
          + intros event' Hne'. by apply assoc_get_set_ne. }
      destruct He1 as (Hcur1 & Hother1 & Hcalls1 & Hsubs1 & Hnext1).
      destruct (IH kept e1 Hnd' Hcur1) as (Ht & Hother & Hcalls & Hsubs & Hnext).
      fold e1. cbv zeta. repeat split.
      * done.
      * intros event' Hne'. etrans; [by apply Hother|by apply Hother1].
      * etrans; [exact Hcalls|]. rewrite Hcalls1. by rewrite <- app_assoc.
      * by etrans.
      * by etrans.
Qed.

Lemma subscriber_fold (event : string) (args : list value) (subs : list nat)
    (e : Emitter.Emitter) :
  foldl (fun e s => Emitter.log (Emitter.SubscriberCall s event args) e) e subs
  = Emitter.mkEmitter (Emitter.topics e) (Emitter.subscriptions e)
      (Emitter.next_wrapper e)
      (Emitter.calls e ++ map (fun s => Emitter.SubscriberCall s event args) subs).
Proof.
  revert e. induction subs as [|s subs IH]; intros e; simpl.
  - rewrite app_nil_r. by destruct e.
  - rewrite IH. unfold Emitter.log. simpl. by rewrite <- app_assoc.
Qed.

(** What one [emit] does, for a well-formed emitter. *)
Lemma emit_spec (event : string) (args : list value) (e : Emitter.Emitter) :
  Emitter.well_formed e →
  let topic := default [] (assoc_get event (Emitter.topics e)) in
  let e' := Emitter.emit event args e in
  Emitter.calls e'
  = Emitter.calls e
    ++ map (fun c => Emitter.CallbackCall (Emitter.target c) args) topic
    ++ map (fun s => Emitter.SubscriberCall s event args) (Emitter.subscriptions e)
  ∧ assoc_get event (Emitter.topics e')
    = (if decide (List.filter Emitter.is_user topic = [])
       then None else Some (List.filter Emitter.is_user topic))
  ∧ (∀ event', event' ≠ event →
               assoc_get event' (Emitter.topics e')
               = assoc_get event' (Emitter.topics e))
  ∧ Emitter.subscriptions e' = Emitter.subscriptions e
  ∧ Emitter.next_wrapper e' = Emitter.next_wrapper e.
Proof.
  intros Hwf. unfold Emitter.emit.
  destruct (assoc_get event (Emitter.topics e)) as [topic|] eqn:Hcur; simpl.
  - destruct (Hwf event topic Hcur) as [Hne Hnd].
    destruct (emit_loop event args topic [] e Hnd) as (Ht & Hother & Hcalls & Hsubs & Hnext).
    { simpl. by rewrite decide_False. }
    simpl in Ht. rewrite subscriber_fold. simpl.
    rewrite Hcalls, Hsubs, <- app_assoc. done.
  - rewrite subscriber_fold. simpl. by rewrite Hcur.
Qed.

Lemma with_topics_same (e : Emitter.Emitter) :
  Emitter.with_topics (Emitter.topics e) e = e.
Proof. by destruct e. Qed.

Lemma on_well_formed (event : string) (c : Emitter.Callback) (e : Emitter.Emitter) :
  Emitter.well_formed e → Emitter.well_formed (Emitter.on event c e).
Proof.
  intros Hwf event' topic'. unfold Emitter.on. simpl.
  destruct (decide (event' = event)) as [->|Hne].
  - rewrite assoc_get_set_eq. intros [= <-]. split.
    + unfold set_add. case_decide as Hin.
      * intros Hnil. rewrite Hnil in Hin. by apply elem_of_nil in Hin.
      * by destruct (default [] (assoc_get event (Emitter.topics e))).
    + apply set_add_NoDup.
      destruct (assoc_get event (Emitter.topics e)) as [t|] eqn:Ht; simpl.
      * by apply (Hwf event t).
      * apply NoDup_nil_2.
  - rewrite assoc_get_set_ne by done. apply Hwf.
Qed.

Lemma off_well_formed (event : string) (c : option Emitter.Callback)
    (e : Emitter.Emitter) :
  Emitter.well_formed e → Emitter.well_formed (Emitter.off event c e).
Proof.
  intros Hwf. unfold Emitter.off.
  destruct (assoc_get event (Emitter.topics e)) as [topic|] eqn:Ht; [|done].
  assert (Hdel : Emitter.well_formed
                   (Emitter.with_topics (assoc_delete event (Emitter.topics e)) e)).
  { intros event' topic'. simpl. destruct (decide (event' = event)) as [->|Hne].
    - by rewrite assoc_get_delete_eq.
    - rewrite assoc_get_delete_ne by done. apply Hwf. }
  destruct c as [c|]; [|done].
  destruct (length (set_delete c topic) =? 0)%nat eqn:Hlen; [done|].
  intros event' topic'. simpl. destruct (decide (event' = event)) as [->|Hne].
  - rewrite assoc_get_set_eq. intros [= <-]. split.
    + intros Hnil. rewrite Hnil in Hlen. discriminate.
    + apply set_delete_NoDup. by apply (Hwf event topic).
  - rewrite assoc_get_set_ne by done. apply Hwf.
Qed.

Lemma once_well_formed (event : string) (id : nat) (e : Emitter.Emitter) :
  Emitter.well_formed e → Emitter.well_formed (Emitter.once event id e).
Proof. intros Hwf. unfold Emitter.once. by apply on_well_formed. Qed.

Lemma filter_is_user_NoDup (topic : list Emitter.Callback) :
  NoDup topic → NoDup (List.filter Emitter.is_user topic).
Proof.
  intros Hnd. induction Hnd as [|y l Hy Hnd IH]; simpl.
  - apply NoDup_nil_2.
  - destruct (Emitter.is_user y); [|done].
    apply NoDup_cons. split; [|done].
    intros Hin. apply Hy.
    apply list_elem_of_In, List.filter_In in Hin as [Hin _].
    by apply list_elem_of_In.
Qed.

Lemma emit_well_formed (event : string) (args : list value) (e : Emitter.Emitter) :
  Emitter.well_formed e → Emitter.well_formed (Emitter.emit event args e).
Proof.
  intros Hwf.
  destruct (emit_spec event args e Hwf) as (_ & Ht & Hother & _).
  intros event' topic'. destruct (decide (event' = event)) as [->|Hne].
  - rewrite Ht. case_decide as Hnil; [done|]. intros [= <-]. split; [done|].
    apply filter_is_user_NoDup.
    destruct (assoc_get event (Emitter.topics e)) as [t|] eqn:Hcur; simpl.
    + by apply (Hwf event t).
    + apply NoDup_nil_2.
  - rewrite Hother by done. apply Hwf.
Qed.

(** X23: registering a callback is idempotent, and taking it off again
    restores the emitter: [on] with the same function twice is [on]
    once, and [off] after [on] of a function that was not registered
    for the event leaves the emitter as it was, an event without
    listeners being dropped from the map. *)
Theorem emitter_on_off (event : string) (c : Emitter.Callback) (e : Emitter.Emitter) :
  Emitter.on event c (Emitter.on event c e) = Emitter.on event c e
  ∧ (Emitter.well_formed e →
     c ∉ default [] (assoc_get event (Emitter.topics e)) →
     Emitter.off event (Some c) (Emitter.on event c e) = e).
Proof.
  split.
  - unfold Emitter.on. simpl. rewrite assoc_get_set_eq. simpl.
    by rewrite set_add_idem, assoc_set_set.
  - intros Hwf Hnin. unfold Emitter.off, Emitter.on. simpl.
    rewrite assoc_get_set_eq. rewrite set_delete_add by done.
    destruct (assoc_get event (Emitter.topics e)) as [topic|] eqn:Ht; simpl.
    + destruct (Hwf event topic Ht) as [Hne _].
      destruct topic as [|c0 topic]; [done|]. simpl.
      unfold Emitter.with_topics. simpl.
      rewrite assoc_set_set, (assoc_set_id event (c0 :: topic)) by done.
      by destruct e.
    + unfold Emitter.with_topics. simpl.
      rewrite assoc_delete_set_fresh by done. by destruct e.
Qed.

Lemma emitter_on_off_witness :
  Emitter.off "log" (Some (Emitter.UserCallback 1%nat))
    (Emitter.on "log" (Emitter.UserCallback 1%nat) Emitter.createEmitter)
  = Emitter.createEmitter.
Proof.
  apply (emitter_on_off "log" (Emitter.UserCallback 1%nat) Emitter.createEmitter).
  - intros event topic Ht. discriminate.
  - apply not_elem_of_nil.
Defined.

(** X24: what an [emit] delivers: every callback registered for the
    event is called once with the arguments, in the order of
    registration, then every subscriber with the event and the
    arguments; the callbacks of other events are not called and their
    topics are untouched; afterwards the topic of the event holds the
    functions registered with [on], in order, and no wrapper of [once]. *)
Theorem emitter_emit_delivery (event : string) (args : list value)
    (e : Emitter.Emitter) :
  Emitter.well_formed e →
  let topic := default [] (assoc_get event (Emitter.topics e)) in
  Emitter.calls (Emitter.emit event args e)
  = Emitter.calls e
    ++ map (fun c => Emitter.CallbackCall (Emitter.target c) args) topic
    ++ map (fun s => Emitter.SubscriberCall s event args) (Emitter.subscriptions e)
  ∧ default [] (assoc_get event (Emitter.topics (Emitter.emit event args e)))
    = List.filter Emitter.is_user topic
  ∧ (∀ event', event' ≠ event →
               assoc_get event' (Emitter.topics (Emitter.emit event args e))
               = assoc_get event' (Emitter.topics e))
  ∧ Emitter.subscriptions (Emitter.emit event args e) = Emitter.subscriptions e.
Proof.
  intros Hwf topic.
  destruct (emit_spec event args e Hwf) as (Hcalls & Ht & Hother & Hsubs & _).
  split; [done|]. split; [|done].
  rewrite Ht. fold topic.
  destruct (decide (List.filter Emitter.is_user topic = [])) as [Hnil|Hnil];
    [by rewrite Hnil | done].
Qed.

Lemma emitter_emit_delivery_witness :
  Emitter.calls
    (Emitter.emit "log" [VString "hi"]
       (Emitter.subscribe 9%nat
          (Emitter.on "log" (Emitter.UserCallback 1%nat) Emitter.createEmitter)))
  = [Emitter.CallbackCall 1%nat [VString "hi"];
     Emitter.SubscriberCall 9%nat "log" [VString "hi"]].
Proof.
  apply (emitter_emit_delivery "log" [VString "hi"]
           (Emitter.subscribe 9%nat
              (Emitter.on "log" (Emitter.UserCallback 1%nat) Emitter.createEmitter))).
  intros event topic. simpl. case_decide; [|discriminate].
  intros [= <-]. split; [discriminate | apply NoDup_singleton].
Defined.

Lemma filter_is_user_app_wrapper (topic : list Emitter.Callback) (wid id : nat) :
  List.filter Emitter.is_user (topic ++ [Emitter.OnceWrapper wid id])
  = List.filter Emitter.is_user topic.
Proof. rewrite List.filter_app. simpl. by rewrite app_nil_r. Qed.

(** X25: a function registered with [once] is called by the next
    [emit] of the event, after the callbacks registered before it, and
    by no later [emit]: the first [emit] takes its wrapper off and
    leaves the functions registered with [on]. *)
Theorem emitter_once_fires_once (event : string) (id : nat)
    (args args' : list value) (e : Emitter.Emitter) :
  Emitter.well_formed e →
  once_wrappers_known e →
  let topic := default [] (assoc_get event (Emitter.topics e)) in
  let e2 := Emitter.emit event args (Emitter.once event id e) in
  let e3 := Emitter.emit event args' e2 in
  Emitter.calls e2
  = Emitter.calls e
    ++ map (fun c => Emitter.CallbackCall (Emitter.target c) args) topic
    ++ [Emitter.CallbackCall id args]
    ++ map (fun s => Emitter.SubscriberCall s event args) (Emitter.subscriptions e)
  ∧ default [] (assoc_get event (Emitter.topics e2))
    = List.filter Emitter.is_user topic
  ∧ Emitter.calls e3
    = Emitter.calls e2
      ++ map (fun c => Emitter.CallbackCall (Emitter.target c) args')
             (List.filter Emitter.is_user topic)
      ++ map (fun s => Emitter.SubscriberCall s event args') (Emitter.subscriptions e).
Proof.
  intros Hwf Hknown topic e2 e3. subst e2 e3.
  set (w := Emitter.OnceWrapper (Emitter.next_wrapper e) id).
  set (e1 := Emitter.once event id e).
  set (e2 := Emitter.emit event args e1).
  set (e3 := Emitter.emit event args' e2).
  assert (Hfresh : w ∉ topic).
  { unfold topic. destruct (assoc_get event (Emitter.topics e)) as [t|] eqn:Ht; simpl.
    - intros Hin. apply (Hknown event t _ _ Ht) in Hin. lia.
    - apply not_elem_of_nil. }
  assert (Htopic1 : default [] (assoc_get event (Emitter.topics e1)) = topic ++ [w]).
  { unfold e1, Emitter.once, Emitter.on. simpl. rewrite assoc_get_set_eq. simpl.
    fold topic. fold w. unfold set_add. by rewrite decide_False. }
  assert (Hwf1 : Emitter.well_formed e1) by (by apply once_well_formed).
  destruct (emit_spec event args e1 Hwf1) as (Hcalls2 & Ht2 & _ & Hsubs2 & _).
  fold e2 in Hcalls2, Ht2, Hsubs2. rewrite Htopic1 in Hcalls2, Ht2.
  unfold w in Ht2. rewrite filter_is_user_app_wrapper in Ht2.
  assert (Htopic2 : default [] (assoc_get event (Emitter.topics e2))
                    = List.filter Emitter.is_user topic).
  { rewrite Ht2.
    destruct (decide (List.filter Emitter.is_user topic = [])) as [Hnil|Hnil];
      [by rewrite Hnil | done]. }
  assert (Hwf2 : Emitter.well_formed e2) by (by apply emit_well_formed).
  destruct (emit_spec event args' e2 Hwf2) as (Hcalls3 & _).
  fold e3 in Hcalls3. rewrite Htopic2, Hsubs2 in Hcalls3.
  split; [|split; [done|done]].
  rewrite Hcalls2, map_app. simpl. by rewrite <- app_assoc.
Qed.

Lemma emitter_once_fires_once_witness :
  Emitter.calls
    (Emitter.emit "done" [VNumber 2]
       (Emitter.emit "done" [VNumber 1]
          (Emitter.once "done" 5%nat Emitter.createEmitter)))
  = Emitter.calls
      (Emitter.emit "done" [VNumber 1]
         (Emitter.once "done" 5%nat Emitter.createEmitter))
    ++ [] ++ [].
Proof.
  apply (emitter_once_fires_once "done" 5%nat [VNumber 1] [VNumber 2]
           Emitter.createEmitter).
  - intros event topic Ht. discriminate.
  - intros event topic wid id Ht. discriminate.
Defined.

(** X26: [off( event, fn )] does not cancel [once( event, fn )]: the
    topic holds the wrapper, not [fn], so the wrapper stays registered
    and the next [emit] still calls [fn]; only [off( event )] without a
    function removes it. *)
Theorem emitter_once_survives_off (event : string) (id : nat) (args : list value)
    (e : Emitter.Emitter) :
  Emitter.well_formed e →
  let e1 := Emitter.off event (Some (Emitter.UserCallback id))
              (Emitter.once event id e) in
  Emitter.OnceWrapper (Emitter.next_wrapper e) id
    ∈ default [] (assoc_get event (Emitter.topics e1))
  ∧ Emitter.CallbackCall id args
      ∈ drop (length (Emitter.calls e)) (Emitter.calls (Emitter.emit event args e1))
  ∧ assoc_get event
      (Emitter.topics (Emitter.off event None (Emitter.once event id e))) = None.
Proof.
  intros Hwf e1. subst e1.
  set (e1 := Emitter.off event (Some (Emitter.UserCallback id))
               (Emitter.once event id e)).
  set (w := Emitter.OnceWrapper (Emitter.next_wrapper e) id).
  set (topic := default [] (assoc_get event (Emitter.topics e))).
  assert (Hw : w ∈ set_delete (Emitter.UserCallback id) (set_add w topic)).
  { apply elem_of_set_delete. split; [|done].
    unfold set_add. case_decide; [done|].
    apply elem_of_app. right. apply list_elem_of_here. }
  assert (Htopic1 : default [] (assoc_get event (Emitter.topics e1))
                    = set_delete (Emitter.UserCallback id) (set_add w topic)).
  { unfold e1, Emitter.off, Emitter.once, Emitter.on. simpl.
    rewrite assoc_get_set_eq. fold topic. fold w.
    destruct (set_delete (Emitter.UserCallback id) (set_add w topic))
      as [|c0 rest] eqn:Hdel.
    - by apply elem_of_nil in Hw.
    - simpl. by rewrite assoc_get_set_eq. }
  assert (Hcalls1 : Emitter.calls e1 = Emitter.calls e).
  { unfold e1, Emitter.off, Emitter.once, Emitter.on. simpl.
    rewrite assoc_get_set_eq.
    by destruct (length _ =? 0)%nat. }
  assert (Hwf1 : Emitter.well_formed e1)
    by (by apply off_well_formed, once_well_formed).
  destruct (emit_spec event args e1 Hwf1) as (Hcalls & _).
  split; [|split].
  - by rewrite Htopic1.
  - rewrite Hcalls, Hcalls1, drop_app_length, Htopic1.
    apply elem_of_app. left.
    apply list_elem_of_In, List.in_map_iff. exists w. split; [done|].
    by apply list_elem_of_In.
  - unfold Emitter.off, Emitter.once, Emitter.on. simpl.
    rewrite assoc_get_set_eq. simpl. apply assoc_get_delete_eq.
Qed.

Lemma emitter_once_survives_off_witness :
  Emitter.OnceWrapper 0%nat 5%nat
    ∈ default []
        (assoc_get "done"
           (Emitter.topics
              (Emitter.off "done" (Some (Emitter.UserCallback 5%nat))
                 (Emitter.once "done" 5%nat Emitter.createEmitter)))).
Proof.
  apply (emitter_once_survives_off "done" 5%nat [] Emitter.createEmitter).
  intros event topic Ht. discriminate.
Defined.

(** X27: the emitter keeps its map tidy: starting from a new emitter,
    no operation leaves an event mapped to an empty set of callbacks
    or a callback registered twice for one event. *)
Theorem emitter_well_formed_invariant :
  Emitter.well_formed Emitter.createEmitter
  ∧ ∀ e, Emitter.well_formed e →
         (∀ event c, Emitter.well_formed (Emitter.on event c e))
         ∧ (∀ event c, Emitter.well_formed (Emitter.off event c e))
         ∧ (∀ event id, Emitter.well_formed (Emitter.once event id e))
         ∧ (∀ event args, Emitter.well_formed (Emitter.emit event args e))
         ∧ (∀ id, Emitter.well_formed (Emitter.subscribe id e))
         ∧ (∀ id, Emitter.well_formed (Emitter.unsubscribe id e))
         ∧ Emitter.well_formed (Emitter.clear e).
Proof.
  split.
  - intros event topic Ht. discriminate.
  - intros e Hwf.
    split; [|split; [|split; [|split; [|split; [|split]]]]].
    + intros event c. by apply on_well_formed.
    + intros event c. by apply off_well_formed.
    + intros event id. by apply once_well_formed.
    + intros event args. by apply emit_well_formed.
    + intros id. exact Hwf.
    + intros id. exact Hwf.
    + intros event topic Ht. discriminate.
Qed.

Lemma emitter_well_formed_invariant_witness :
  Emitter.well_formed
    (Emitter.emit "done" [] (Emitter.once "done" 5%nat Emitter.createEmitter)).
Proof.
  destruct emitter_well_formed_invariant as [H0 Hstep].
  destruct (Hstep Emitter.createEmitter H0) as (_ & _ & Honce & _).
  destruct (Hstep _ (Honce "done" 5%nat)) as (_ & _ & _ & Hemit & _).
  apply Hemit.
Defined.

(** X28: removing listeners.  [off( event )] without a function drops
    every callback of the event, wrappers of [once] included, so an
    [emit] of it reaches the subscribers only; [clear] drops the
    subscribers as well, so an [emit] calls nothing; [off] for an event
    without listeners changes nothing. *)
Theorem emitter_removal (event : string) (args : list value) (e : Emitter.Emitter) :
  Emitter.calls (Emitter.emit event args (Emitter.off event None e))
  = Emitter.calls e
    ++ map (fun s => Emitter.SubscriberCall s event args) (Emitter.subscriptions e)
  ∧ (∀ event', event' ≠ event →
       assoc_get event' (Emitter.topics (Emitter.off event None e))
       = assoc_get event' (Emitter.topics e))
  ∧ Emitter.calls (Emitter.emit event args (Emitter.clear e)) = Emitter.calls e
  ∧ (assoc_get event (Emitter.topics e) = None →
     ∀ c, Emitter.off event c e = e).
Proof.
  assert (Hoff : assoc_get event (Emitter.topics (Emitter.off event None e)) = None
                 ∧ Emitter.calls (Emitter.off event None e) = Emitter.calls e
                 ∧ Emitter.subscriptions (Emitter.off event None e)
                   = Emitter.subscriptions e
                 ∧ ∀ event', event' ≠ event →
                     assoc_get event' (Emitter.topics (Emitter.off event None e))
                     = assoc_get event' (Emitter.topics e)).
  { unfold Emitter.off.
    destruct (assoc_get event (Emitter.topics e)) as [t|] eqn:Ht; simpl.
    - repeat split; [apply assoc_get_delete_eq|].
      intros event' Hne. by apply assoc_get_delete_ne.
    - by repeat split. }
  destruct Hoff as (Hnone & Hcalls & Hsubs & Hother).
  split; [|split; [done|split]].
  - unfold Emitter.emit. rewrite Hnone, subscriber_fold. simpl.
    by rewrite Hcalls, Hsubs.
  - reflexivity.
  - intros Hnone' c. unfold Emitter.off. by rewrite Hnone'.
Qed.

Lemma emitter_removal_witness :
  Emitter.off "done" (Some (Emitter.UserCallback 1%nat)) Emitter.createEmitter
  = Emitter.createEmitter.
Proof.
  apply (emitter_removal "done" [] Emitter.createEmitter). reflexivity.
Defined.
